(** * Animation controls of the motion library: a shallow embedding

    The development follows [src/motion/utils/use-animation-controls.ts]
    (class [AnimationControls] and [resolveVariant]) and
    [src/render/dom/utils/build-html-props.ts] ([buildHTMLProps]).

    Conventions of the embedding:
    - a JavaScript object used as a dictionary ([Target], the value map, the
      variants) is a [gmap string _]; a [Set<string>] is a [gset string];
    - JavaScript numbers are exact rationals ([Q]): statements about delays
      are statements about the arithmetic the code writes down.  Where a
      statement depends on the rounding of IEEE doubles, the delays of the
      children are computed once more in double arithmetic ([Binary64]);
    - the controller class is split into the fields one instance owns
      ([Fields]) and the registry of child controllers, so that a controller
      with its registered children is a finite tree ([AnimationControls]);
    - a promise is a term of type [Promise]: what is still awaited and which
      callback runs when it is settled.  The event loop is the labelled step
      relation [step]. *)

From Stdlib Require Import QArith Lqa.
From Stdlib Require SpecFloat.
From stdpp Require Import base option list strings gmap fin_maps.

Set Warnings "-clear-no-such-hyp".

Local Open Scope string_scope.
Local Open Scope list_scope.
Local Open Scope nat_scope.

(** ** Data model *)

(** A property value: [string | number], or the value [undefined] that a
    property read yields for a missing key. *)
Inductive Val : Type :=
  | VUndefined
  | VNumber (n : Q)
  | VString (s : string).

(** [Target]: property name to value.  [prop_get o key] is [o[key]]. *)
Abbreviation Target := (gmap string Val).
Abbreviation Props := (gmap string Val).

Definition prop_get (o : Target) (key : string) : Val :=
  default VUndefined (o !! key).

Definition is_undefined (v : Val) : bool :=
  match v with VUndefined => true | _ => false end.

(** [Object.keys(o)] (the order of the keys plays no role below). *)
Definition keys {A : Type} (o : gmap string A) : list string :=
  (map_to_list o).*1.

(** [Transition]: the orchestration fields the controller reads, and the
    remaining timing properties, which it only hands on. *)
Record Transition : Type := mkTransition {
  beforeChildren : option bool;
  afterChildren : option bool;
  delayChildren : option Q;
  staggerChildren : option Q;
  staggerDirection : option Q;
  timing : gmap string Val }.

(** [TargetAndTransition]: [{ transition?, transitionEnd?, ...target }]. *)
Record TargetAndTransition : Type := mkTargetAndTransition {
  tt_transition : option Transition;
  tt_transitionEnd : option Target;
  tt_target : Target }.

(** [Variant = TargetAndTransition | TargetResolver]; the resolver receives
    the [props] argument of the call, which may be [undefined]. *)
Inductive Variant : Type :=
  | VObject (o : TargetAndTransition)
  | VResolver (f : option Props → TargetAndTransition).

(** [AnimationDefinition = VariantLabels | TargetAndTransition | TargetResolver]
    with [VariantLabels = string | string[]]. *)
Inductive AnimationDefinition : Type :=
  | DLabels (labels : list string)
  | DLabel (label : string)
  | DVariant (v : Variant).

(** JavaScript truthiness of a definition: only the empty string is falsy. *)
Definition truthy (d : AnimationDefinition) : bool :=
  match d with
  | DLabel "" => false
  | _ => true
  end.

(** [AnimationOptions = { delay?: number, priority?: number }]; the empty
    object [{}] is [noOptions]. *)
Record AnimationOptions : Type := mkOptions {
  delay : option Q;
  priority : option nat }.

Definition noOptions : AnimationOptions :=
  {| delay := None; priority := None |}.

(** What [resolveVariant] returns. *)
Record Resolved : Type := mkResolved {
  r_target : option Target;
  r_transition : option Transition;
  r_transitionEnd : option Target }.

(** Modelled from the spec: the arguments of the transition-to-animation
    mapper [getTransition(key, valueTarget, { delay, ...transition })], whose
    result [value.control] receives.  [src/motion/utils/transitions] is not
    part of the sources. *)
Record Playback : Type := mkPlayback {
  pb_key : string;
  pb_to : Val;
  pb_delay : Q;
  pb_transition : option Transition }.

(** Modelled from the spec: the controllable value primitive of [src/value]
    ([get], [set(newValue)], [control(action, options)], [stop()]).  A value
    holds its current value and the animation last handed to [control]; the
    frames an animation produces are the scheduler's and are not modelled. *)
Record MotionValue : Type := mkMotionValue {
  mv_current : Val;
  mv_controlled : option Playback }.

Definition motionValue (init : Val) : MotionValue :=
  {| mv_current := init; mv_controlled := None |}.

Definition mv_set (v : Val) (value : MotionValue) : MotionValue :=
  {| mv_current := v; mv_controlled := mv_controlled value |}.

Definition mv_control (a : Playback) (value : MotionValue) : MotionValue :=
  {| mv_current := mv_current value; mv_controlled := Some a |}.

(** Callbacks handed to [then], and promises. *)
Inductive Deferred : Type :=
  | DTransitionEnd (transitionEnd : option Target)
  | DAnimate (variant : Variant) (opts : AnimationOptions)
  | DAnimateChildren (variantLabel : string)
      (delayChildren staggerChildren staggerDirection : Q) (priority : nat)
  | DResolve.

#[warnings="-register-all"]
Inductive Promise : Type :=
  | PResolved
  | PControl (key : string)
  | PAll (ps : list Promise)
  | PThen (p : Promise) (k : Deferred)
  | PChild (i : nat) (p : Promise).

(** The fields of one controller instance. *)
Record Fields : Type := mkFields {
  props : option Props;
  values : gmap string MotionValue;
  variants : gmap string Variant;
  baseTarget : gmap string Val;
  overrides : list (option AnimationDefinition);
  defaultTransition : option Transition;
  isAnimating : gset string }.

(** A controller with its registry of children, in registration order;
    [None] is the registry that was never created. *)
#[warnings="-register-all"]
Inductive AnimationControls : Type :=
  | Controls (self : Fields) (children : option (list AnimationControls)).

Definition self (c : AnimationControls) : Fields :=
  match c with Controls s _ => s end.

Definition children (c : AnimationControls) : option (list AnimationControls) :=
  match c with Controls _ ch => ch end.

Definition with_props (x : option Props) (s : Fields) : Fields :=
  mkFields x (values s) (variants s) (baseTarget s) (overrides s)
    (defaultTransition s) (isAnimating s).

Definition with_values (x : gmap string MotionValue) (s : Fields) : Fields :=
  mkFields (props s) x (variants s) (baseTarget s) (overrides s)
    (defaultTransition s) (isAnimating s).

Definition with_variants (x : gmap string Variant) (s : Fields) : Fields :=
  mkFields (props s) (values s) x (baseTarget s) (overrides s)
    (defaultTransition s) (isAnimating s).

Definition with_baseTarget (x : gmap string Val) (s : Fields) : Fields :=
  mkFields (props s) (values s) (variants s) x (overrides s)
    (defaultTransition s) (isAnimating s).

Definition with_overrides (x : list (option AnimationDefinition)) (s : Fields) : Fields :=
  mkFields (props s) (values s) (variants s) (baseTarget s) x
    (defaultTransition s) (isAnimating s).

Definition with_defaultTransition (x : option Transition) (s : Fields) : Fields :=
  mkFields (props s) (values s) (variants s) (baseTarget s) (overrides s)
    x (isAnimating s).

Definition with_isAnimating (x : gset string) (s : Fields) : Fields :=
  mkFields (props s) (values s) (variants s) (baseTarget s) (overrides s)
    (defaultTransition s) x.

(** The collaborators the controller consumes through narrow interfaces:
    [complex.test] of style-value-types, the live style reader
    [styler(ref.current).get] and [unitConversion]. *)
Class Collaborators : Type := mkCollaborators {
  complex_test : string → bool;
  styler_get : string → Val;
  unitConversion :
    gmap string MotionValue → Target → option Target → Target * option Target }.

(** ** Variant resolution *)

Definition resolveVariant (variant : option Variant) (props : option Props) : Resolved :=
  match variant with
  | None =>
      {| r_target := None; r_transition := None; r_transitionEnd := None |}
  | Some variant =>
      let variant :=
        match variant with
        | VResolver f => f props
        | VObject o => o
        end in
      {| r_target := Some (tt_target variant);
         r_transition := tt_transition variant;
         r_transitionEnd := tt_transitionEnd variant |}
  end.

(** ** The controller *)

Section controller.
Context {ext : Collaborators}.

(** [typeof value === "number" || complex.test(value)]. *)
Definition isAnimatable (value : Val) : bool :=
  match value with
  | VNumber _ => true
  | VString s => complex_test s
  | VUndefined => false
  end.

Definition setProps (p : Props) (s : Fields) : Fields :=
  with_props (Some p) s.

Definition setVariants (v : option (gmap string Variant)) (s : Fields) : Fields :=
  match v with
  | Some v => with_variants v s
  | None => s
  end.

Definition setDefaultTransition (t : option Transition) (s : Fields) : Fields :=
  match t with
  | Some t => with_defaultTransition (Some t) s
  | None => s
  end.

(** One round of the [forEach] of [setValues]; [isActive] is the set the
    caller passes along. *)
Definition setValue (target : Target) (acc : Fields * gset string) (key : string)
    : Fields * gset string :=
  let '(s, isActive) := acc in
  if decide (key ∈ isActive) then acc
  else
    let v := prop_get target key in
    let vs :=
      match values s !! key with
      | Some value => <[key := mv_set v value]> (values s)
      | None => <[key := motionValue v]> (values s)
      end in
    (with_baseTarget (<[key := v]> (baseTarget s)) (with_values vs s),
     {[key]} ∪ isActive).

Definition setValues (target : Target) (isActive : gset string) (s : Fields)
    : Fields * gset string :=
  foldl (setValue target) (s, isActive) (keys target).

Definition seedValue (s : Fields) (key : string) : Fields :=
  let domValue := styler_get key in
  with_baseTarget (<[key := domValue]> (baseTarget s))
    (with_values (<[key := motionValue domValue]> (values s)) s).

Definition checkForNewValues (target : Target) (s : Fields) : Fields :=
  let newValueKeys :=
    filter (λ key, values s !! key = None) (keys target) in
  foldl seedValue s newValueKeys.

(** The loop of [getHighestPriority], from index [i] on. *)
Fixpoint highestFrom (i : nat) (ov : list (option AnimationDefinition))
    (highest : nat) : nat :=
  match ov with
  | [] => highest
  | o :: rest =>
      highestFrom (S i) rest (match o with Some _ => i | None => highest end)
  end.

Definition getHighestPriority (s : Fields) : nat :=
  highestFrom 0 (overrides s) 0.

(** [this.overrides[priority] = definition]: an index past the end extends
    the array, the slots in between are holes. *)
Definition setPriorityAnimation (definition : AnimationDefinition)
    (priority : nat) (s : Fields) : Fields :=
  let ov := overrides s in
  with_overrides
    (if decide (priority < length ov) then <[priority := Some definition]> ov
     else ov ++ replicate (priority - length ov) None ++ [Some definition])
    s.

(** The loop of [isHighestPriority] over the slots it visits. *)
Fixpoint noneOccupied (ov : list (option AnimationDefinition)) : bool :=
  match ov with
  | [] => true
  | Some _ :: _ => false
  | None :: rest => noneOccupied rest
  end.

Definition isHighestPriority (priority : nat) (s : Fields) : bool :=
  noneOccupied (drop (S priority) (overrides s)).

(** One round of the [reduce] of [animate]. *)
Definition animateKey (target : Target) (transition : option Transition)
    (delay : Q) (priority : nat) (acc : Fields * list Promise) (key : string)
    : Fields * list Promise :=
  let '(s, animations) := acc in
  if decide (key ∈ isAnimating s) then acc
  else
    match values s !! key with
    | None => acc
    | Some value =>
        let valueTarget := prop_get target key in
        if is_undefined valueTarget then acc
        else
          let bt :=
            if (priority =? 0)%nat then <[key := valueTarget]> (baseTarget s)
            else baseTarget s in
          let '(value, animations) :=
            if isAnimatable valueTarget then
              (mv_control (mkPlayback key valueTarget delay transition) value,
               animations ++ [PControl key])
            else (mv_set valueTarget value, animations) in
          (with_isAnimating ({[key]} ∪ isAnimating s)
             (with_values (<[key := value]> (values s))
                (with_baseTarget bt s)),
           animations)
    end.

Definition animate (animationDefinition : option Variant)
    (opts : AnimationOptions) (s : Fields) : Fields * Promise :=
  let delay := default 0%Q (delay opts) in
  let priority := default 0%nat (priority opts) in
  let r := resolveVariant animationDefinition None in
  match r_target r with
  | None => (s, PResolved)
  | Some target =>
      let s := checkForNewValues target s in
      let converted := unitConversion (values s) target (r_transitionEnd r) in
      let target := converted.1 in
      let transitionEnd := converted.2 in
      let transition :=
        match r_transition r with
        | None => defaultTransition s
        | Some t => Some t
        end in
      let '(s, animations) :=
        foldl (animateKey target transition delay priority) (s, []) (keys target) in
      (s, PThen (PAll animations) (DTransitionEnd transitionEnd))
  end.

(** [applyVariantLabels]: the non-animated sibling of [animateVariant]. *)
Definition applyVariantLabel (acc : Fields * gset string) (key : string)
    : Fields * gset string :=
  let '(s, isSetting) := acc in
  let r := resolveVariant (variants s !! key) (props s) in
  let acc :=
    match r_transitionEnd r with
    | Some transitionEnd => setValues transitionEnd isSetting s
    | None => acc
    end in
  match r_target r with
  | Some target => setValues target acc.2 acc.1
  | None => acc
  end.

Definition applyVariantLabels (variantLabelList : list string) (s : Fields) : Fields :=
  (foldl applyVariantLabel (s, ∅) (reverse variantLabelList)).1.

(** *** Children and stagger *)

Fixpoint resetIsAnimating (c : AnimationControls) : AnimationControls :=
  match c with
  | Controls s ch =>
      Controls (with_isAnimating ∅ s)
        (match ch with
         | Some l => Some (map resetIsAnimating l)
         | None => None
         end)
  end.

(** [generateStaggerDuration] of [animateChildren], for a registry of
    [size] children, over the rationals; [Binary64.generateStaggerDuration]
    below is the same computation in doubles. *)
Definition generateStaggerDuration (size : nat)
    (staggerChildren staggerDirection : Q) (i : nat) : Q :=
  let maxStaggerDuration :=
    ((inject_Z (Z.of_nat size) - 1) * staggerChildren)%Q in
  if Qeq_bool staggerDirection 1
  then (inject_Z (Z.of_nat i) * staggerChildren)%Q
  else (maxStaggerDuration - inject_Z (Z.of_nat i) * staggerChildren)%Q.

(** The options object [animateChildren] hands to the child at index [i]. *)
Definition childOptions (size : nat)
    (delayChildren staggerChildren staggerDirection : Q) (priority i : nat)
    : AnimationOptions :=
  {| priority := Some priority;
     delay :=
       Some (delayChildren
             + generateStaggerDuration size staggerChildren staggerDirection i)%Q |}.

(** [Array.from(children).forEach((childControls, i) => ...)], collecting
    the promise of each child. *)
Fixpoint forEachChild (f : nat → AnimationControls → AnimationControls * Promise)
    (i : nat) (l : list AnimationControls) : list AnimationControls * list Promise :=
  match l with
  | [] => ([], [])
  | childControls :: rest =>
      let '(childControls, animation) := f i childControls in
      let '(rest, animations) := forEachChild f (S i) rest in
      (childControls :: rest, PChild i animation :: animations)
  end.

(** The orchestration settings [animateVariant] reads off the variant's
    transition: [beforeChildren], [afterChildren], [delayChildren],
    [staggerChildren], [staggerDirection], with [x || default]. *)
Definition falsyQ (q : option Q) (d : Q) : Q :=
  match q with
  | Some x => if Qeq_bool x 0 then d else x
  | None => d
  end.

Definition orchestration (transition : option Transition)
    : bool * bool * Q * Q * Q :=
  match transition with
  | Some t =>
      (default false (beforeChildren t), default false (afterChildren t),
       falsyQ (delayChildren t) 0, falsyQ (staggerChildren t) 0,
       falsyQ (staggerDirection t) 1)
  | None => (false, false, 0%Q, 0%Q, 1%Q)
  end.

Fixpoint animateVariant (variantLabel : string) (opts : AnimationOptions)
    (c : AnimationControls) {struct c} : AnimationControls * Promise :=
  match c with
  | Controls s ch =>
      let priority := default 0%nat (priority opts) in
      let variant := variants s !! variantLabel in
      let getAnimations (s : Fields) : Fields * Promise :=
        match variant with
        | Some v => animate (Some v) opts s
        | None => (s, PResolved)
        end in
      let '(beforeChildren, afterChildren, delayChildren, staggerChildren,
            staggerDirection) :=
        match variant, ch with
        | Some v, Some _ =>
            orchestration (r_transition (resolveVariant (Some v) None))
        | _, _ => orchestration None
        end in
      let getChildrenAnimations (ch : option (list AnimationControls))
          : option (list AnimationControls) * Promise :=
        match ch with
        | Some l =>
            let '(l, animations) :=
              forEachChild
                (λ i childControls,
                   animateVariant variantLabel
                     (childOptions (length l) delayChildren staggerChildren
                        staggerDirection priority i)
                     childControls)
                0 l in
            (Some l, PAll animations)
        | None => (None, PResolved)
        end in
      if beforeChildren || afterChildren then
        if beforeChildren then
          let '(s, first) := getAnimations s in
          (Controls s ch,
           PThen first
             (match ch with
              | Some _ =>
                  DAnimateChildren variantLabel delayChildren staggerChildren
                    staggerDirection priority
              | None => DResolve
              end))
        else
          let '(ch, first) := getChildrenAnimations ch in
          (Controls s ch,
           PThen first
             (match variant with
              | Some v => DAnimate v opts
              | None => DResolve
              end))
      else
        let '(s, own) := getAnimations s in
        let '(ch, kids) := getChildrenAnimations ch in
        (Controls s ch, PAll [own; kids])
  end.

Definition animateChildren (variantLabel : string)
    (delayChildren staggerChildren staggerDirection : Q) (priority : nat)
    (c : AnimationControls) : AnimationControls * Promise :=
  match children c with
  | None => (c, PResolved)
  | Some l =>
      let '(l, animations) :=
        forEachChild
          (λ i childControls,
             animateVariant variantLabel
               (childOptions (length l) delayChildren staggerChildren
                  staggerDirection priority i)
               childControls)
          0 l in
      (Controls (self c) (Some l), PAll animations)
  end.

Definition animateVariantLabels (variantLabels : list string)
    (opts : AnimationOptions) (c : AnimationControls)
    : AnimationControls * Promise :=
  let '(c, animations) :=
    foldl
      (λ '(c, animations) label,
         let '(c, animation) := animateVariant label opts c in
         (c, animations ++ [animation]))
      (c, []) (reverse variantLabels) in
  (c, PAll animations).

(** [animate] of the controller [c]; its children are not involved. *)
Definition animateSelf (animationDefinition : option Variant)
    (opts : AnimationOptions) (c : AnimationControls)
    : AnimationControls * Promise :=
  let '(s, p) := animate animationDefinition opts (self c) in
  (Controls s (children c), p).

(** *** [start] and [clearOverride] *)

Definition start (definition : AnimationDefinition) (opts : AnimationOptions)
    (c : AnimationControls) : AnimationControls * Promise :=
  let c :=
    Controls
      (setPriorityAnimation definition (default 0%nat (priority opts)) (self c))
      (children c) in
  if match priority opts with
     | Some p => negb (isHighestPriority p (self c))
     | None => false
     end
  then (c, PResolved)
  else
    let c := resetIsAnimating c in
    match definition with
    | DLabels labels => animateVariantLabels labels opts c
    | DLabel label => animateVariant label opts c
    | DVariant v => animateSelf (Some v) opts c
    end.

(** [clearOverride] returns nothing; the second component collects the
    promises of the calls whose results it drops.  [this.baseTarget] is
    passed to [animate] as a variant without [transition] and
    [transitionEnd]. *)
Definition clearOverride (overrideIndex : nat) (c : AnimationControls)
    : AnimationControls * Promise :=
  match overrides (self c) !! overrideIndex with
  | Some (Some override) =>
      if truthy override then
        let c :=
          Controls
            (with_overrides (<[overrideIndex := None]> (overrides (self c)))
               (self c))
            (children c) in
        let highest := getHighestPriority (self c) in
        let c := resetIsAnimating c in
        if decide (overrideIndex < highest) then (c, PResolved)
        else
          let '(c, restarted) :=
            match overrides (self c) !! highest with
            | Some (Some highestOverride) =>
                if truthy highestOverride then
                  start highestOverride
                    {| delay := None; priority := Some highest |} c
                else (c, PResolved)
            | _ => (c, PResolved)
            end in
          let '(c, reapplied) :=
            animateSelf
              (Some (VObject (mkTargetAndTransition None None
                                (baseTarget (self c)))))
              noOptions c in
          (c, PAll [restarted; reapplied])
      else (c, PResolved)
  | _ => (c, PResolved)
  end.

(** ** Promises and the event loop *)

Fixpoint settled (p : Promise) : bool :=
  match p with
  | PResolved => true
  | PControl _ => false
  | PAll ps => forallb settled ps
  | PThen _ _ => false
  | PChild _ p => settled p
  end.

(** Running the callback of a [then] on the controller that created it. *)
Definition runDeferred (k : Deferred) (c : AnimationControls)
    : AnimationControls * Promise :=
  match k with
  | DTransitionEnd None => (c, PResolved)
  | DTransitionEnd (Some transitionEnd) =>
      (Controls (setValues transitionEnd ∅ (self c)).1 (children c), PResolved)
  | DAnimate v opts => animateSelf (Some v) opts c
  | DAnimateChildren variantLabel delayChildren staggerChildren
      staggerDirection priority =>
      animateChildren variantLabel delayChildren staggerChildren
        staggerDirection priority c
  | DResolve => (c, PResolved)
  end.

(** What the environment observes of one turn of the event loop. *)
Inductive event : Type :=
  | EvSettle (key : string)
  | EvThen (k : Deferred).

Inductive step : AnimationControls * Promise → event
    → AnimationControls * Promise → Prop :=
  | step_settle c key :
      step (c, PControl key) (EvSettle key) (c, PResolved)
  | step_then c p k c' p' :
      settled p = true →
      runDeferred k c = (c', p') →
      step (c, PThen p k) (EvThen k) (c', p')
  | step_awaited c p k ev c' p' :
      step (c, p) ev (c', p') →
      step (c, PThen p k) ev (c', PThen p' k)
  | step_all c ps1 p ps2 ev c' p' :
      step (c, p) ev (c', p') →
      step (c, PAll (ps1 ++ p :: ps2)) ev (c', PAll (ps1 ++ p' :: ps2))
  | step_child s l i childControls p ev childControls' p' :
      l !! i = Some childControls →
      step (childControls, p) ev (childControls', p') →
      step (Controls s (Some l), PChild i p) ev
           (Controls s (Some (<[i := childControls']> l)), PChild i p').

Inductive steps : AnimationControls * Promise → list event
    → AnimationControls * Promise → Prop :=
  | steps_nil x : steps x [] x
  | steps_cons x ev y evs z :
      step x ev y → steps y evs z → steps x (ev :: evs) z.

End controller.

(** ** Building the props of an HTML element *)

(** The fields of [HTMLVisualElement] that [buildHTMLProps] reads. *)
Record HTMLVisualElement : Type := mkVisualElement {
  reactStyle : gmap string Val;
  style : gmap string Val;
  vars : gmap string Val }.

(** [HTMLVisualElement.clean] and [.build]: declared outside the sources. *)
Class VisualElementMethods : Type := mkVisualElementMethods {
  clean : HTMLVisualElement → HTMLVisualElement;
  build : HTMLVisualElement → HTMLVisualElement }.

(** The [drag] prop: [boolean | "x" | "y"]. *)
Inductive DragProp : Type :=
  | DragBool (b : bool)
  | DragX
  | DragY.

Definition drag_truthy (drag : option DragProp) : bool :=
  match drag with
  | Some (DragBool b) => b
  | Some _ => true
  | None => false
  end.

Record HTMLProps : Type := mkHTMLProps {
  hp_style : gmap string Val;
  hp_draggable : option bool }.

Section html_props.
Context {methods : VisualElementMethods}.

(** Returns the props and the visual element as [clean] and [build] left
    it.  A spread of several objects keeps the entry of the last one. *)
Definition buildHTMLProps (visualElement : HTMLVisualElement)
    (drag : option DragProp) : HTMLProps * HTMLVisualElement :=
  let visualElement := build (clean visualElement) in
  let htmlProps :=
    {| hp_style :=
         vars visualElement ∪ (style visualElement ∪ reactStyle visualElement);
       hp_draggable := None |} in
  let htmlProps :=
    if drag_truthy drag then
      {| hp_style := <["userSelect" := VString "none"]> (hp_style htmlProps);
         hp_draggable := Some false |}
    else htmlProps in
  (htmlProps, visualElement).

End html_props.

(** ** Notions used in the statements *)

(** Slot [i] of the override stack holds a definition. *)
Definition occupied (s : Fields) (i : nat) : Prop :=
  ∃ d, overrides s !! i = Some (Some d).

(** What one key sees of a controller's fields. *)
Definition view (key : string) (s : Fields) : option MotionValue * option Val * bool :=
  (values s !! key, baseTarget s !! key, bool_decide (key ∈ isAnimating s)).

(** The fields no animation pass writes. *)
Definition config (s : Fields)
    : option Props * gmap string Variant * list (option AnimationDefinition)
      * option Transition :=
  (props s, variants s, overrides s, defaultTransition s).

Definition N2Q (n : nat) : Q := inject_Z (Z.of_nat n).

(** A promise of [value.control], pending or settled. *)
Definition isControl (p : Promise) : Prop :=
  p = PResolved ∨ ∃ key, p = PControl key.

Definition isSettle (ev : event) : Prop := ∃ key, ev = EvSettle key.

(** The value tracked for [key] has been set to [x], which is also its
    base target. *)
Definition assigned (s : Fields) (key : string) (x : Val) : Prop :=
  (∃ value, values s !! key = Some value ∧ mv_current value = x)
  ∧ baseTarget s !! key = Some x.

(** [animateVariant] puts the own animation of the variant after the
    animations of the children ([afterChildren] without [beforeChildren],
    on a controller with a registry). *)
Definition ownAnimationWaits (v : Variant)
    (ch : option (list AnimationControls)) : bool :=
  match ch with
  | Some _ =>
      let '(beforeChildren, afterChildren, _, _, _) :=
        orchestration (r_transition (resolveVariant (Some v) None)) in
      negb beforeChildren && afterChildren
  | None => false
  end.

Section statements.
Context {ext : Collaborators}.

(** The target a variant declares, as [animate] resolves it. *)
Definition declaredTarget (v : Variant) : Target :=
  default ∅ (r_target (resolveVariant (Some v) None)).

(** The target a pass of [animate] works with: the declared target after
    new values are seeded and units are converted. *)
Definition resolvedTarget (v : Variant) (s : Fields) : Target :=
  (unitConversion (values (checkForNewValues (declaredTarget v) s))
     (declaredTarget v) (r_transitionEnd (resolveVariant (Some v) None))).1.

Definition resolvedTransitionEnd (v : Variant) (s : Fields) : option Target :=
  (unitConversion (values (checkForNewValues (declaredTarget v) s))
     (declaredTarget v) (r_transitionEnd (resolveVariant (Some v) None))).2.

(** [start] records the definition and goes on to animate. *)
Definition accepted (opts : AnimationOptions) (c : AnimationControls) : Prop :=
  match priority opts with
  | Some p => ∀ i, p < i → ¬ occupied (self c) i
  | None => True
  end.

(** [this.baseTarget] read as a variant. *)
Definition baseVariant (s : Fields) : Variant :=
  VObject (mkTargetAndTransition None None (baseTarget s)).

(** The controller with slot [i] of its override stack unset. *)
Definition unsetSlot (i : nat) (c : AnimationControls) : AnimationControls :=
  Controls (with_overrides (<[i := None]> (overrides (self c))) (self c))
    (children c).

(** The value tracked for [key] is on its way to [b]: handed to [control]
    with [b] as destination when [b] is animatable, set to [b] otherwise. *)
Definition drivenTo (s : Fields) (key : string) (b : Val) : Prop :=
  ∃ value, values s !! key = Some value
    ∧ if isAnimatable b
      then ∃ a, mv_controlled value = Some a ∧ pb_key a = key ∧ pb_to a = b
      else mv_current value = b.

End statements.

(** ** Sample configurations *)

(** Collaborators that convert nothing, find no complex string animatable
    and read ["auto"] off the element. *)
Definition sampleCollaborators : Collaborators :=
  {| complex_test := λ _, false;
     styler_get := λ _, VString "auto";
     unitConversion := λ _ target transitionEnd, (target, transitionEnd) |}.

Definition targetOnly (target : Target) : Variant :=
  VObject (mkTargetAndTransition None None target).

(** A gesture override [{ scale: 2 }] and two explicit targets on [x]. *)
Definition pressed : AnimationDefinition :=
  DVariant (targetOnly {["scale" := VNumber 2]}).

Definition hovered : AnimationDefinition :=
  DVariant (targetOnly {["x" := VNumber 9]}).

Definition moveTo (n : Q) : Variant := targetOnly {["x" := VNumber n]}.

(** A controller tracking [x], resting at [x = 0], with a gesture in slot 2. *)
Definition sampleControls : AnimationControls :=
  Controls
    {| props := None;
       values := {["x" := motionValue (VNumber 0)]};
       variants := ∅;
       baseTarget := {["x" := VNumber 0]};
       overrides := [None; None; Some pressed];
       defaultTransition := None;
       isAnimating := {["scale"]} |}
    None.


(** The scenario with a fade: [visible] and [hidden]. *)
Definition hidden : Variant :=
  VObject (mkTargetAndTransition None
             (Some {["display" := VString "none"]})
             {["opacity" := VNumber 0]}).

Definition fadeVariants : gmap string Variant :=
  {["visible" := targetOnly {["opacity" := VNumber 1]}; "hidden" := hidden]}.

Definition fadeFields : Fields :=
  {| props := None;
     values := {["opacity" := motionValue (VNumber 1);
                 "display" := motionValue (VString "block")]};
     variants := fadeVariants;
     baseTarget := ∅;
     overrides := [];
     defaultTransition := None;
     isAnimating := ∅ |}.

(** A resolver that reads [x] off the props it is given. *)
Definition fromProps : Variant :=
  VResolver (λ props,
    mkTargetAndTransition None None
      {["x" := match props with
               | Some p => prop_get p "x"
               | None => VNumber 0
               end]}).

Definition propsFields : Fields :=
  {| props := Some {["x" := VNumber 100]};
     values := {["x" := motionValue (VNumber 50)]};
     variants := {["moved" := fromProps]};
     baseTarget := ∅;
     overrides := [];
     defaultTransition := None;
     isAnimating := ∅ |}.

Definition leaf : AnimationControls := Controls fadeFields None.

Definition atPriority (p : nat) : AnimationOptions :=
  {| delay := None; priority := Some p |}.

Definition fadeOut : Fields * Promise :=
  animate (ext := sampleCollaborators) (Some hidden) noOptions fadeFields.

Definition snapDisplay : Deferred :=
  DTransitionEnd (Some {["display" := VString "none"]}).

Definition fadedOut : AnimationControls * Promise :=
  runDeferred (ext := sampleCollaborators) snapDisplay (Controls fadeOut.1 None).

Definition staggered (priority : nat) (staggerDirection : Q) (i : nat)
    : AnimationOptions :=
  childOptions 3 (1 # 2) (1 # 10) staggerDirection priority i.

(** ** Further operations and notions *)

(** [resetChildren]: [if (this.children) this.children.clear()]. *)
Definition resetChildren (c : AnimationControls) : AnimationControls :=
  Controls (self c)
    (match children c with
     | Some _ => Some []
     | None => None
     end).

(** The fields of every controller of the tree, the root first. *)
Fixpoint controllers (c : AnimationControls) : list Fields :=
  match c with
  | Controls s ch =>
      s :: match ch with
           | Some l => concat (map controllers l)
           | None => []
           end
  end.

(** The number of registered children, when there is a registry. *)
Definition registered (c : AnimationControls) : option nat :=
  length <$> children c.

(** What [applyVariantLabels] sets for one resolved variant: the entries of
    [transitionEnd], then those of [target] it does not cover. *)
Definition applied (r : Resolved) : Target :=
  default ∅ (r_transitionEnd r) ∪ default ∅ (r_target r).

(** The transition a pass uses: the variant's own, else the default one. *)
Definition passTransition (v : Variant) (s : Fields) : option Transition :=
  match r_transition (resolveVariant (Some v) None) with
  | None => defaultTransition s
  | Some t => Some t
  end.

(** Every promise of the list is the promise of a child. *)
Definition childPromises (ps : list Promise) : Prop :=
  Forall (λ p, ∃ i q, p = PChild i q) ps.

(** The delay a pass uses: [{ delay = 0 }]. *)
Definition passDelay (opts : AnimationOptions) : Q := default 0%Q (delay opts).

Section replaying.
Context {ext : Collaborators}.

(** [this.start(highestOverride, { priority: highest })] once slot [i] is
    unset and the marks are cleared. *)
Definition replay (definition : AnimationDefinition) (p i : nat)
    (c : AnimationControls) : AnimationControls * Promise :=
  start definition {| delay := None; priority := Some p |}
    (resetIsAnimating (unsetSlot i c)).

(** [this.animate(this.baseTarget)]. *)
Definition reapplyBase (c : AnimationControls) : AnimationControls * Promise :=
  animateSelf (Some (baseVariant (self c))) noOptions c.

End replaying.

(** ** Further sample configurations *)

(** [opacity] is already marked as animating. *)
Definition fading : Fields := with_isAnimating {["opacity"]} fadeFields.

(** A parent that fades before its two children, staggered, or after them. *)
Definition leading : Transition :=
  mkTransition (Some true) None None (Some (1 # 10)%Q) None ∅.

Definition following : Transition :=
  mkTransition None (Some true) None None None ∅.

Definition fadeWith (t : Transition) : Variant :=
  VObject (mkTargetAndTransition (Some t) None {["opacity" := VNumber 0]}).

Definition parentFields (t : Transition) : Fields :=
  {| props := None;
     values := {["opacity" := motionValue (VNumber 1)]};
     variants := {["hidden" := fadeWith t]};
     baseTarget := ∅;
     overrides := [];
     defaultTransition := None;
     isAnimating := ∅ |}.

Definition family (t : Transition) : AnimationControls :=
  Controls (parentFields t) (Some [leaf; leaf]).

Definition animateTheChildren : Deferred :=
  DAnimateChildren "hidden" 0 (1 # 10) 1 0.

(** The parent has faded, the callback animating the children has run. *)
Definition ledRun : list event :=
  [EvSettle "opacity"; EvThen (DTransitionEnd None); EvThen animateTheChildren].

Definition led : AnimationControls * Promise :=
  runDeferred (ext := sampleCollaborators) animateTheChildren
    (animateVariant (ext := sampleCollaborators) "hidden" noOptions
       (family leading)).1.

(** Both children have faded, the callback animating the parent has run. *)
Definition followedRun : list event :=
  [EvSettle "opacity"; EvThen snapDisplay;
   EvSettle "opacity"; EvThen snapDisplay;
   EvThen (DAnimate (fadeWith following) noOptions)].

Definition followed : AnimationControls * Promise :=
  runDeferred (ext := sampleCollaborators)
    (DAnimate (fadeWith following) noOptions)
    (Controls (parentFields following) (Some [fadedOut.1; fadedOut.1])).

(** ** Double arithmetic

    The delays of the children once more, in the arithmetic the code runs
    in: IEEE 754 binary64 with rounding to nearest even.  The size of the
    registry and the indices are integers far below [2 ^ 53]; doubles hold
    them and their differences exactly, so [size - 1] is taken on the
    integers. *)
Module Binary64.

Definition double : Type := SpecFloat.spec_float.

Definition prec : Z := 53.
Definition emax : Z := 1024.

Definition ofZ (n : Z) : double :=
  SpecFloat.binary_normalize prec emax n 0 false.

Definition add : double → double → double := SpecFloat.SFadd prec emax.
Definition sub : double → double → double := SpecFloat.SFsub prec emax.
Definition mul : double → double → double := SpecFloat.SFmul prec emax.
Definition div : double → double → double := SpecFloat.SFdiv prec emax.

(** [x === y] on numbers. *)
Definition eqb : double → double → bool := SpecFloat.SFeqb.

(** Neither [NaN] nor an infinity. *)
Definition isFinite (x : double) : bool :=
  match x with
  | SpecFloat.S754_zero _ | SpecFloat.S754_finite _ _ _ => true
  | _ => false
  end.

(** [generateStaggerDuration] of [animateChildren], every operation
    rounded. *)
Definition generateStaggerDuration (size : nat)
    (staggerChildren staggerDirection : double) (i : nat) : double :=
  let maxStaggerDuration := mul (ofZ (Z.of_nat size - 1)) staggerChildren in
  if eqb staggerDirection (ofZ 1)
  then mul (ofZ (Z.of_nat i)) staggerChildren
  else sub maxStaggerDuration (mul (ofZ (Z.of_nat i)) staggerChildren).

(** [delayChildren + generateStaggerDuration(i)], the delay of child [i]. *)
Definition childDelay (size : nat)
    (delayChildren staggerChildren staggerDirection : double) (i : nat)
    : double :=
  add delayChildren
    (generateStaggerDuration size staggerChildren staggerDirection i).

End Binary64.

(** The double [0.1]: [1 / 10] rounded, which is
    [7205759403792794 * 2 ^ -56]. *)
Definition tenth : Binary64.double :=
  Binary64.div (Binary64.ofZ 1) (Binary64.ofZ 10).

(** The fade once [opacity] has settled and the callback has not run yet. *)
Definition opacitySettled : AnimationControls * Promise :=
  (Controls fadeOut.1 None, PThen (PAll [PResolved]) snapDisplay).

(** * Facts *)

Lemma bool_decide_agree (P R : Prop) `{Decision P, Decision R} :
  bool_decide P = bool_decide R → P ↔ R.
Proof.
  intros Heq. split; intros Hx; apply (bool_decide_pack _) in Hx.
  - rewrite Heq in Hx. by apply bool_decide_unpack in Hx.
  - rewrite <- Heq in Hx. by apply bool_decide_unpack in Hx.
Qed.

(** ** [setValues] *)

Lemma setValue_other target acc key k :
  key ≠ k →
  values (setValue target acc k).1 !! key = values acc.1 !! key
  ∧ baseTarget (setValue target acc k).1 !! key = baseTarget acc.1 !! key
  ∧ (key ∈ (setValue target acc k).2 ↔ key ∈ acc.2).
Proof.
  intros Hne. destruct acc as [s isActive]. unfold setValue.
  case_decide; [done |]. cbn.
  split; [| split].
  - destruct (values s !! k); by rewrite lookup_insert_ne.
  - by rewrite lookup_insert_ne.
  - set_solver.
Qed.

Lemma foldl_setValue_notin target ks acc key :
  key ∉ ks →
  values (foldl (setValue target) acc ks).1 !! key = values acc.1 !! key
  ∧ baseTarget (foldl (setValue target) acc ks).1 !! key = baseTarget acc.1 !! key.
Proof.
  revert acc. induction ks as [|k ks IH]; intros acc Hn; [done |].
  cbn [foldl]. destruct (IH (setValue target acc k)) as [Hv Hb]; [set_solver |].
  destruct (setValue_other target acc key k) as (Hv' & Hb' & _); [set_solver |].
  by rewrite Hv, Hb, Hv', Hb'.
Qed.

Lemma foldl_setValue_in target ks s isActive key x :
  NoDup ks → key ∈ ks → key ∉ isActive → target !! key = Some x →
  assigned (foldl (setValue target) (s, isActive) ks).1 key x.
Proof.
  revert s isActive. induction ks as [|k ks IH];
    intros s isActive Hnd Hin Hnot Hx; [set_solver |].
  apply NoDup_cons in Hnd as [Hk Hnd]. cbn [foldl].
  destruct (decide (key = k)) as [<-|Hne].
  - destruct (foldl_setValue_notin target ks (setValue target (s, isActive) key)
                key Hk) as [Hv Hb].
    unfold assigned. rewrite Hv, Hb. unfold setValue.
    rewrite decide_False by done. unfold prop_get. rewrite Hx. cbn.
    split; [| by rewrite lookup_insert_eq].
    destruct (values s !! key); rewrite lookup_insert_eq; by eexists.
  - destruct (setValue_other target (s, isActive) key k Hne) as (_ & _ & Hact).
    destruct (setValue target (s, isActive) k) as [s1 isActive1].
    apply IH; [done | set_solver | | done]. cbn in Hact. by rewrite Hact.
Qed.

(** [setValues] on a fresh set assigns every entry of the target. *)
Lemma setValues_assigns target s key x :
  target !! key = Some x → assigned (setValues target ∅ s).1 key x.
Proof.
  intros Hx. unfold setValues. apply foldl_setValue_in; [| | set_solver | done].
  - apply NoDup_fst_map_to_list.
  - unfold keys. apply list_elem_of_fmap. exists (key, x).
    split; [done | by apply elem_of_map_to_list].
Qed.

(** ** One pass of [animate] *)

Section animate_facts.
Context {ext : Collaborators}.

Lemma keys_NoDup {A} (o : gmap string A) : NoDup (keys o).
Proof. apply NoDup_fst_map_to_list. Qed.

Lemma elem_of_keys {A} (o : gmap string A) key : key ∈ keys o ↔ is_Some (o !! key).
Proof.
  unfold keys. rewrite list_elem_of_fmap. split.
  - intros ([k v] & -> & Hin). apply elem_of_map_to_list in Hin. by exists v.
  - intros [v Hv]. exists (key, v). split; [done | by apply elem_of_map_to_list].
Qed.

Lemma animateKey_config target transition delay priority acc key :
  config (animateKey target transition delay priority acc key).1 = config acc.1.
Proof.
  destruct acc as [s a]. unfold animateKey.
  case_decide; [done |]. destruct (values s !! key); [| done].
  destruct (is_undefined _); [done |].
  by destruct (isAnimatable _).
Qed.

Lemma animateKey_other target transition delay priority acc key k :
  key ≠ k →
  view key (animateKey target transition delay priority acc k).1 = view key acc.1.
Proof.
  intros Hne. destruct acc as [s a]. unfold animateKey.
  case_decide; [done |]. destruct (values s !! k); [| done].
  destruct (is_undefined _); [done |].
  unfold view.
  destruct (isAnimatable _); simpl;
    (rewrite lookup_insert_ne by done);
    (f_equal; [f_equal |]).
  all: try (destruct (priority =? 0)%nat; [by rewrite lookup_insert_ne | done]).
  all: apply bool_decide_ext; set_solver.
Qed.

Lemma animateKey_same target transition delay priority s a s' a' key :
  view key s = view key s' →
  view key (animateKey target transition delay priority (s, a) key).1
  = view key (animateKey target transition delay priority (s', a') key).1.
Proof.
  unfold view. intros Hv. injection Hv as Hval Hbase Hin.
  unfold animateKey.
  pose proof (bool_decide_agree _ _ Hin) as Hiff.
  rewrite <- Hval.
  destruct (decide (key ∈ isAnimating s)) as [Hi|Hi];
    destruct (decide (key ∈ isAnimating s')) as [Hi'|Hi']; try tauto.
  - simpl. by rewrite Hval, Hbase, Hin.
  - destruct (values s !! key) eqn:E; simpl.
    2:{ by rewrite E, Hval, Hbase, Hin. }
    destruct (is_undefined _); simpl.
    { by rewrite E, Hval, Hbase, Hin. }
    destruct (isAnimatable _); simpl; rewrite !lookup_insert_eq;
      (f_equal; [f_equal |]).
    all: try (destruct (priority =? 0)%nat; [by rewrite !lookup_insert_eq | done]).
    all: apply bool_decide_ext; set_solver.
Qed.

Lemma foldl_animateKey_config target transition delay priority ks acc :
  config (foldl (animateKey target transition delay priority) acc ks).1 = config acc.1.
Proof.
  revert acc. induction ks as [|k ks IH]; intros acc; [done |].
  cbn [foldl]. rewrite IH. apply animateKey_config.
Qed.

Lemma foldl_animateKey_notin target transition delay priority ks acc key :
  key ∉ ks →
  view key (foldl (animateKey target transition delay priority) acc ks).1
  = view key acc.1.
Proof.
  revert acc. induction ks as [|k ks IH]; intros acc Hn; [done |].
  cbn [foldl]. rewrite IH by set_solver. apply animateKey_other. set_solver.
Qed.

Lemma foldl_animateKey_in target transition delay priority ks s a key :
  NoDup ks → key ∈ ks →
  view key (foldl (animateKey target transition delay priority) (s, a) ks).1
  = view key (animateKey target transition delay priority (s, []) key).1.
Proof.
  revert s a. induction ks as [|k ks IH]; intros s a Hnd Hin; [set_solver |].
  apply NoDup_cons in Hnd as [Hk Hnd]. cbn [foldl].
  destruct (decide (key = k)) as [->|Hne].
  - rewrite foldl_animateKey_notin by done.
    by apply animateKey_same.
  - destruct (animateKey target transition delay priority (s, a) k) as [s1 a1] eqn:E.
    rewrite IH by set_solver.
    apply animateKey_same.
    change s1 with (s1, a1).1. rewrite <- E. by apply animateKey_other.
Qed.

(** The animation promises of a pass: one per controlled key. *)
Lemma foldl_animateKey_promises target transition delay priority ks acc :
  Forall (λ p, ∃ key, p = PControl key) acc.2 →
  Forall (λ p, ∃ key, p = PControl key)
    (foldl (animateKey target transition delay priority) acc ks).2.
Proof.
  revert acc. induction ks as [|k ks IH]; intros acc Hacc; [done |].
  cbn [foldl]. apply IH. destruct acc as [s a]. unfold animateKey.
  case_decide; [done |]. destruct (values s !! k); [| done].
  destruct (is_undefined _); [done |].
  destruct (isAnimatable _); simpl; [| done].
  apply Forall_app. split; [done |]. apply Forall_singleton. by eexists.
Qed.

Lemma checkForNewValues_config target s :
  config (checkForNewValues target s) = config s.
Proof.
  unfold checkForNewValues. generalize (filter (λ key, values s !! key = None) (keys target)).
  intros l. revert s. induction l as [|k l IH]; intros s; [done |].
  simpl. by rewrite IH.
Qed.

Lemma checkForNewValues_isAnimating target s :
  isAnimating (checkForNewValues target s) = isAnimating s.
Proof.
  unfold checkForNewValues. generalize (filter (λ key, values s !! key = None) (keys target)).
  intros l. revert s. induction l as [|k l IH]; intros s; [done |].
  simpl. by rewrite IH.
Qed.

Lemma foldl_seedValue_tracked l s key :
  is_Some (values s !! key) ∨ key ∈ l →
  is_Some (values (foldl seedValue s l) !! key).
Proof.
  revert s. induction l as [|k l IH]; intros s Hk; simpl.
  - destruct Hk; [done | set_solver].
  - apply IH. destruct (decide (key = k)) as [->|Hne].
    + left. simpl. rewrite lookup_insert_eq. by eexists.
    + destruct Hk as [Hk|Hk].
      * left. simpl. by rewrite lookup_insert_ne.
      * right. set_solver.
Qed.

(** After [checkForNewValues] every key of the target is tracked. *)
Lemma checkForNewValues_tracked target s key :
  is_Some (target !! key) →
  is_Some (values (checkForNewValues target s) !! key).
Proof.
  intros Hk. unfold checkForNewValues. apply foldl_seedValue_tracked.
  destruct (values s !! key) eqn:E; [left; by eexists |].
  right. apply list_elem_of_filter. split; [done | by apply elem_of_keys].
Qed.

Lemma animate_config variant opts s :
  config (animate variant opts s).1 = config s.
Proof.
  unfold animate. destruct (r_target _) as [target|]; [| done].
  match goal with
  | |- context [foldl (animateKey ?t ?tr ?d ?p) ?acc ?ks] =>
      pose proof (foldl_animateKey_config t tr d p ks acc) as Hc;
      destruct (foldl (animateKey t tr d p) acc ks) as [s' a]
  end.
  cbn [fst] in *. rewrite Hc. apply checkForNewValues_config.
Qed.

End animate_facts.

Lemma noneOccupied_false ov :
  noneOccupied ov = false ↔ ∃ i d, ov !! i = Some (Some d).
Proof.
  induction ov as [|[d|] ov IH]; simpl.
  - split; [done | intros (i & d & Hi); by rewrite lookup_nil in Hi].
  - split; [intros _; by exists 0%nat, d | done].
  - rewrite IH. split.
    + intros (i & d & Hi). by exists (S i), d.
    + intros ([|i] & d & Hi); [done | by exists i, d].
Qed.

(** ** Priorities *)

Lemma isHighestPriority_false p s :
  isHighestPriority p s = false ↔ ∃ i, p < i ∧ occupied s i.
Proof.
  unfold isHighestPriority, occupied. rewrite noneOccupied_false. split.
  - intros (i & d & Hi). rewrite lookup_drop in Hi.
    exists (S p + i)%nat. split; [lia | by exists d].
  - intros (i & Hlt & d & Hi). exists (i - S p)%nat, d.
    rewrite lookup_drop. by replace (S p + (i - S p))%nat with i by lia.
Qed.

(** C6: [isHighestPriority p] answers [false] exactly when some slot of
    index greater than [p] is occupied; two stacks that agree on the
    occupancy of the slots above [p] get the same answer, whatever the slots
    at [p] and below hold. *)
Theorem isHighestPriority_spec (p : nat) (s : Fields) :
  (isHighestPriority p s = false ↔ ∃ i, p < i ∧ occupied s i)
  ∧ (∀ s', (∀ i, p < i → occupied s i ↔ occupied s' i) →
           isHighestPriority p s' = isHighestPriority p s).
Proof.
  split; [apply isHighestPriority_false |].
  intros s' Hsame.
  destruct (isHighestPriority p s) eqn:E, (isHighestPriority p s') eqn:E'; try done.
  - apply isHighestPriority_false in E' as (i & Hlt & Hi).
    assert (isHighestPriority p s = false) as E2; [| congruence].
    apply isHighestPriority_false. exists i. split; [done | by apply Hsame].
  - apply isHighestPriority_false in E as (i & Hlt & Hi).
    assert (isHighestPriority p s' = false) as E2; [| congruence].
    apply isHighestPriority_false. exists i. split; [done | by apply Hsame].
Qed.

(** ** Configuration *)

(** C9, amended: [setVariants] with a mapping stores exactly that mapping,
    nothing of the previous one is kept and no other field changes; without
    an argument it leaves the controller as it is. *)
Theorem setVariants_present_or_kept (s : Fields) :
  (∀ v, setVariants (Some v) s = with_variants v s
        ∧ variants (setVariants (Some v) s) = v)
  ∧ setVariants None s = s.
Proof. split; [intros v; split |]; reflexivity. Qed.

(** ** HTML props *)

Section html_props_facts.
Context {methods : VisualElementMethods}.

(** C10: the style of the returned props merges [reactStyle], [style] and
    [vars] of the element as [clean] and [build] left it, [vars] winning over
    [style] and [style] over [reactStyle]; a truthy [drag] sets
    [style.userSelect] to ["none"] and [draggable] to [false], a falsy
    [drag] touches neither. *)
Theorem buildHTMLProps_spec (visualElement : HTMLVisualElement) (drag : option DragProp) :
  let built := build (clean visualElement) in
  let htmlProps := (buildHTMLProps visualElement drag).1 in
  (buildHTMLProps visualElement drag).2 = built
  ∧ (∀ key : string,
       hp_style htmlProps !! key =
         if drag_truthy drag && bool_decide (key = "userSelect")
         then Some (VString "none")
         else match vars built !! key with
              | Some v => Some v
              | None => match style built !! key with
                        | Some v => Some v
                        | None => reactStyle built !! key
                        end
              end)
  ∧ hp_draggable htmlProps = (if drag_truthy drag then Some false else None).
Proof.
  unfold buildHTMLProps. cbn zeta.
  split; [done |]. split.
  - intros key. destruct (drag_truthy drag); simpl.
    + case_bool_decide as Hk.
      * subst. by rewrite lookup_insert_eq.
      * rewrite lookup_insert_ne by done.
        rewrite !lookup_union.
        by destruct (vars _ !! key), (style _ !! key), (reactStyle _ !! key).
    + rewrite !lookup_union.
      by destruct (vars _ !! key), (style _ !! key), (reactStyle _ !! key).
  - by destruct (drag_truthy drag).
Qed.

End html_props_facts.

(** ** Stagger delays in double arithmetic *)

Lemma iter_pos_invariant {A : Type} (P : A → Prop) (f : A → A) :
  (∀ x, P x → P (f x)) → ∀ n x, P x → P (SpecFloat.iter_pos f n x).
Proof.
  intros Hf. induction n as [n IH | n IH |]; intros x Hx; cbn.
  - apply IH, IH, Hf, Hx.
  - apply IH, IH, Hx.
  - apply Hf, Hx.
Qed.

Lemma shr_fexp_nonneg m e l :
  (0 <= m)%Z →
  (0 <= SpecFloat.shr_m (SpecFloat.shr_fexp Binary64.prec Binary64.emax m e l).1)%Z.
Proof.
  intros Hm. unfold SpecFloat.shr_fexp, SpecFloat.shr.
  assert (0 <= SpecFloat.shr_m (SpecFloat.shr_record_of_loc m l))%Z as H0.
  { by destruct l as [|[]]. }
  destruct (_ - e)%Z as [|p|p]; cbn [fst]; try done.
  apply (iter_pos_invariant (λ mrs, (0 <= SpecFloat.shr_m mrs)%Z)); [| done].
  intros [mm r s] Hmm. cbn in *.
  destruct mm as [|[q|q|]|q]; cbn; lia.
Qed.

Lemma binary_round_aux_number sx mx ex lx :
  (0 <= mx)%Z →
  SpecFloat.binary_round_aux Binary64.prec Binary64.emax sx mx ex lx
  ≠ SpecFloat.S754_nan.
Proof.
  intros Hm. unfold SpecFloat.binary_round_aux.
  pose proof (shr_fexp_nonneg mx ex lx Hm) as H1.
  destruct (SpecFloat.shr_fexp _ _ mx ex lx) as [mrs' e']. cbn [fst] in H1.
  set (m1 := SpecFloat.round_nearest_even _ _).
  assert (0 <= m1)%Z as Hm1.
  { subst m1. unfold SpecFloat.round_nearest_even.
    destruct (SpecFloat.loc_of_shr_record mrs') as [|[]]; try done;
      try destruct (Z.even _); lia. }
  pose proof (shr_fexp_nonneg m1 e' SpecFloat.loc_Exact Hm1) as H2.
  destruct (SpecFloat.shr_fexp _ _ m1 e' _) as [mrs'' e'']. cbn [fst] in H2.
  destruct (SpecFloat.shr_m mrs'') as [|q|q]; [done | | lia].
  by destruct (_ <=? _)%Z.
Qed.

Lemma binary_normalize_number m e :
  SpecFloat.binary_normalize Binary64.prec Binary64.emax m e false
  ≠ SpecFloat.S754_nan.
Proof.
  destruct m as [|q|q]; cbn [SpecFloat.binary_normalize]; [done | |];
    unfold SpecFloat.binary_round;
    destruct (SpecFloat.shl_align _ _ _) as [mz ez];
    by apply binary_round_aux_number.
Qed.

Lemma add_finite_number x y :
  Binary64.isFinite x = true → Binary64.isFinite y = true →
  Binary64.add x y ≠ SpecFloat.S754_nan.
Proof.
  destruct x as [sx|sx| |sx mx ex], y as [sy|sy| |sy my ey]; try done;
    intros _ _; cbn.
  - by destruct sx, sy.
  - apply binary_normalize_number.
Qed.

Lemma eqb_same x : x ≠ SpecFloat.S754_nan → Binary64.eqb x x = true.
Proof.
  intros Hx. unfold Binary64.eqb, SpecFloat.SFeqb.
  destruct x as [s|s| |s m e]; [done | by destruct s | done |].
  cbn. rewrite Z.compare_refl, Pos.compare_cont_refl. by destruct s.
Qed.

Lemma eqb_zeros a b :
  Binary64.eqb (SpecFloat.S754_zero a) (SpecFloat.S754_zero b) = true.
Proof. reflexivity. Qed.

(** Adding a zero of either sign to a finite number gives the same number. *)
Lemma add_zero_either d a b :
  Binary64.isFinite d = true →
  Binary64.eqb (Binary64.add d (SpecFloat.S754_zero a))
    (Binary64.add d (SpecFloat.S754_zero b)) = true.
Proof.
  destruct d as [s|s| |s m e]; try done; intros _.
  - by destruct s, a, b.
  - cbn. rewrite Z.compare_refl, Pos.compare_cont_refl. by destruct s.
Qed.

Lemma mul_finite x y :
  Binary64.isFinite (Binary64.mul x y) = true → Binary64.isFinite y = true.
Proof. by destruct x as [?|?| |? ? ?], y as [?|?| |? ? ?]. Qed.

Lemma mul_zero_finite a y :
  Binary64.isFinite y = true →
  ∃ b, Binary64.mul (SpecFloat.S754_zero a) y = SpecFloat.S754_zero b.
Proof. destruct y as [?|?| |? ? ?]; try done; intros _; by eexists. Qed.

Lemma sub_same_finite x :
  Binary64.isFinite x = true →
  ∃ b, Binary64.sub x x = SpecFloat.S754_zero b.
Proof.
  destruct x as [s|s| |s m e]; try done; intros _.
  - exists false. by destruct s.
  - exists false. cbn. by rewrite Z.sub_diag.
Qed.

(** The two ends of the fan-out: the first child reversed against the last
    one forward, and the last child reversed against the first forward. *)
Lemma childDelay_ends (N : nat)
    (delayChildren staggerChildren reversed : Binary64.double) :
  1 ≤ N →
  Binary64.eqb reversed (Binary64.ofZ 1) = false →
  Binary64.isFinite delayChildren = true →
  Binary64.isFinite
    (Binary64.mul (Binary64.ofZ (Z.of_nat N - 1)) staggerChildren) = true →
  Binary64.eqb
    (Binary64.childDelay N delayChildren staggerChildren reversed 0)
    (Binary64.childDelay N delayChildren staggerChildren (Binary64.ofZ 1)
       (N - 1)) = true
  ∧ Binary64.eqb
      (Binary64.childDelay N delayChildren staggerChildren reversed (N - 1))
      (Binary64.childDelay N delayChildren staggerChildren (Binary64.ofZ 1) 0)
    = true.
Proof.
  intros HN Hrev Hd Hmax.
  unfold Binary64.childDelay, Binary64.generateStaggerDuration. cbv zeta.
  rewrite Hrev.
  replace (Binary64.eqb (Binary64.ofZ 1) (Binary64.ofZ 1)) with true
    by (by vm_compute).
  replace (Z.of_nat (N - 1)) with (Z.of_nat N - 1)%Z by lia.
  set (X := Binary64.mul (Binary64.ofZ (Z.of_nat N - 1)) staggerChildren) in *.
  pose proof (mul_finite _ _ Hmax) as Hs.
  change (Binary64.ofZ (Z.of_nat 0)) with (SpecFloat.S754_zero false).
  destruct (mul_zero_finite false staggerChildren Hs) as [b ->].
  split.
  - destruct X as [sx|sx| |sx mx ex] eqn:EX; try done.
    + replace (Binary64.sub (SpecFloat.S754_zero sx) (SpecFloat.S754_zero b))
        with (SpecFloat.S754_zero (if sx then negb b else false))
        by (by destruct sx, b).
      by apply add_zero_either.
    + change (Binary64.sub (SpecFloat.S754_finite sx mx ex)
                (SpecFloat.S754_zero b))
        with (SpecFloat.S754_finite sx mx ex).
      apply eqb_same. by apply add_finite_number.
  - destruct (sub_same_finite X Hmax) as [b' ->]. by apply add_zero_either.
Qed.

(** ** Stagger *)

Section stagger_facts.
Context {ext : Collaborators}.

Lemma forEachChild_lookup f k l i child :
  l !! i = Some child →
  (forEachChild f k l).1 !! i = Some (f (k + i)%nat child).1
  ∧ (forEachChild f k l).2 !! i = Some (PChild (k + i) (f (k + i)%nat child).2).
Proof.
  revert k i. induction l as [|a l IH]; intros k i Hi; [done |].
  simpl. destruct (f k a) as [a' pa] eqn:Ea.
  destruct (forEachChild f (S k) l) as [l' ps] eqn:El.
  destruct i as [|i]; simpl in *.
  - injection Hi as ->. rewrite Nat.add_0_r, Ea. done.
  - specialize (IH (S k) i Hi). rewrite El in IH. simpl in IH.
    replace (k + S i)%nat with (S k + i)%nat by lia. done.
Qed.

(** C4: the child at registration index [i] of [N] registered children is
    animated with the delay [delayChildren + i * staggerChildren] when
    [staggerDirection] is [1] and with
    [delayChildren + ((N - 1) * staggerChildren - i * staggerChildren)]
    otherwise, over the rationals and, operation by operation, in double
    arithmetic.  Over the rationals the reversed delay of child [i] is the
    forward delay of child [N - 1 - i] for every [i]; in double arithmetic
    the two are equal for the first and for the last child, provided
    [delayChildren] and [(N - 1) * staggerChildren] are finite. *)
Theorem stagger_delay_symmetric (variantLabel : string)
    (delayChildren staggerChildren : Q) (priority : nat) (s : Fields)
    (l : list AnimationControls) (i : nat) (childControls : AnimationControls)
    (Hi : l !! i = Some childControls) :
  (∀ staggerDirection,
     ∃ l', children (animateChildren variantLabel delayChildren staggerChildren
                       staggerDirection priority (Controls s (Some l))).1 = Some l'
           ∧ l' !! i
             = Some (animateVariant variantLabel
                       (childOptions (length l) delayChildren staggerChildren
                          staggerDirection priority i)
                       childControls).1)
  ∧ (∀ staggerDirection, ∃ d,
       childOptions (length l) delayChildren staggerChildren staggerDirection
         priority i
       = {| delay := Some d; priority := Some priority |}
       ∧ ((staggerDirection == 1)%Q →
          (d == delayChildren + N2Q i * staggerChildren)%Q)
       ∧ (¬ (staggerDirection == 1)%Q →
          (d == delayChildren + (N2Q (length l) - 1) * staggerChildren
                - N2Q i * staggerChildren)%Q))
  ∧ (∀ reversed d d',
       ¬ (reversed == 1)%Q →
       delay (childOptions (length l) delayChildren staggerChildren reversed
                priority i) = Some d →
       delay (childOptions (length l) delayChildren staggerChildren 1
                priority (length l - 1 - i)) = Some d' →
       (d == d')%Q)
  ∧ (∀ delayChildren staggerChildren staggerDirection : Binary64.double,
       (Binary64.eqb staggerDirection (Binary64.ofZ 1) = true →
        Binary64.childDelay (length l) delayChildren staggerChildren
          staggerDirection i
        = Binary64.add delayChildren
            (Binary64.mul (Binary64.ofZ (Z.of_nat i)) staggerChildren))
       ∧ (Binary64.eqb staggerDirection (Binary64.ofZ 1) = false →
          Binary64.childDelay (length l) delayChildren staggerChildren
            staggerDirection i
          = Binary64.add delayChildren
              (Binary64.sub
                 (Binary64.mul (Binary64.ofZ (Z.of_nat (length l) - 1))
                    staggerChildren)
                 (Binary64.mul (Binary64.ofZ (Z.of_nat i)) staggerChildren))))
  ∧ (∀ delayChildren staggerChildren reversed : Binary64.double,
       Binary64.eqb reversed (Binary64.ofZ 1) = false →
       Binary64.isFinite delayChildren = true →
       Binary64.isFinite
         (Binary64.mul (Binary64.ofZ (Z.of_nat (length l) - 1))
            staggerChildren) = true →
       Binary64.eqb
         (Binary64.childDelay (length l) delayChildren staggerChildren
            reversed 0)
         (Binary64.childDelay (length l) delayChildren staggerChildren
            (Binary64.ofZ 1) (length l - 1)) = true
       ∧ Binary64.eqb
           (Binary64.childDelay (length l) delayChildren staggerChildren
              reversed (length l - 1))
           (Binary64.childDelay (length l) delayChildren staggerChildren
              (Binary64.ofZ 1) 0) = true).
Proof.
  split; [| split; [| split; [| split]]].
  - intros dir. unfold animateChildren. simpl.
    destruct (forEachChild _ 0 l) as [l' ps] eqn:E. simpl.
    exists l'. split; [done |].
    pose proof (forEachChild_lookup
      (λ j c, animateVariant variantLabel
         (childOptions (length l) delayChildren staggerChildren dir priority j) c)
      0 l i childControls Hi) as [Hl _].
    rewrite E in Hl. exact Hl.
  - intros dir. eexists. split; [reflexivity |].
    unfold generateStaggerDuration. split; intros Hd.
    + apply Qeq_bool_iff in Hd. rewrite Hd. reflexivity.
    + destruct (Qeq_bool dir 1) eqn:E.
      * apply Qeq_bool_iff in E. contradiction.
      * unfold N2Q. ring.
  - intros rev d d' Hrev Hd Hd'. simpl in Hd, Hd'.
    injection Hd as <-. injection Hd' as <-.
    unfold generateStaggerDuration.
    destruct (Qeq_bool rev 1) eqn:E; [apply Qeq_bool_iff in E; contradiction |].
    change (Qeq_bool 1 1) with true. cbv iota.
    assert (i < length l)%nat as Hlt by (apply lookup_lt_Some in Hi; done).
    replace (length l - 1 - i)%nat with (length l - S i)%nat by lia.
    rewrite Nat2Z.inj_sub by lia. rewrite Nat2Z.inj_succ.
    unfold Z.succ.
    rewrite <- Z.add_opp_r, !inject_Z_plus, inject_Z_opp, inject_Z_plus. ring.
  - intros dC sC sD. unfold Binary64.childDelay, Binary64.generateStaggerDuration.
    cbv zeta. split; intros ->; reflexivity.
  - intros dC sC rev Hrev HdC Hmax.
    apply childDelay_ends; [| done | done | done].
    apply lookup_lt_Some in Hi. lia.
Qed.

End stagger_facts.

(** ** The controller tree *)

Section tree_facts.
Context {ext : Collaborators}.

Lemma self_resetIsAnimating c :
  self (resetIsAnimating c) = with_isAnimating ∅ (self c).
Proof. by destruct c. Qed.

Lemma animateChildren_self label dC sC sD priority c :
  self (animateChildren label dC sC sD priority c).1 = self c.
Proof.
  unfold animateChildren. destruct (children c) as [l|]; [| done].
  by destruct (forEachChild _ 0 l).
Qed.

(** [animateVariant] read as in the source: the children are animated by
    [animateChildren], on the controller as the own animation left it. *)
Lemma animateVariant_eq variantLabel opts s ch :
  animateVariant variantLabel opts (Controls s ch) =
    let priority := default 0%nat (priority opts) in
    let variant := variants s !! variantLabel in
    let getAnimations (s : Fields) :=
      match variant with
      | Some v => animate (Some v) opts s
      | None => (s, PResolved)
      end in
    let '(beforeChildren, afterChildren, delayChildren, staggerChildren,
          staggerDirection) :=
      match variant, ch with
      | Some v, Some _ =>
          orchestration (r_transition (resolveVariant (Some v) None))
      | _, _ => orchestration None
      end in
    if beforeChildren || afterChildren then
      if beforeChildren then
        let '(s, first) := getAnimations s in
        (Controls s ch,
         PThen first
           (match ch with
            | Some _ =>
                DAnimateChildren variantLabel delayChildren staggerChildren
                  staggerDirection priority
            | None => DResolve
            end))
      else
        let '(c, first) :=
          animateChildren variantLabel delayChildren staggerChildren
            staggerDirection priority (Controls s ch) in
        (c, PThen first
              (match variant with
               | Some v => DAnimate v opts
               | None => DResolve
               end))
    else
      let '(s, own) := getAnimations s in
      let '(c, kids) :=
        animateChildren variantLabel delayChildren staggerChildren
          staggerDirection priority (Controls s ch) in
      (c, PAll [own; kids]).
Proof.
  cbn [animateVariant]. cbv zeta.
  destruct (match variants s !! variantLabel with
            | Some v => match ch with
                        | Some _ => orchestration (r_transition (resolveVariant (Some v) None))
                        | None => orchestration None
                        end
            | None => orchestration None
            end) as [[[[b a] dC] sC] sD].
  destruct (b || a); [destruct b |].
  - done.
  - unfold animateChildren. cbn [children self].
    destruct ch as [l|]; [| done]. by destruct (forEachChild _ 0 l).
  - destruct (match variants s !! variantLabel with
              | Some v => animate (Some v) opts s
              | None => (s, PResolved)
              end) as [s' own].
    unfold animateChildren. cbn [children self].
    destruct ch as [l|]; [| done]. by destruct (forEachChild _ 0 l).
Qed.

(** The own fields after [animateVariant]: either untouched (the own
    animation is absent or deferred) or as [animate] left them. *)
Lemma animateVariant_self variantLabel opts c :
  self (animateVariant variantLabel opts c).1 = self c
  ∨ ∃ v, variants (self c) !! variantLabel = Some v
         ∧ self (animateVariant variantLabel opts c).1
           = (animate (Some v) opts (self c)).1.
Proof.
  destruct c as [s ch]. rewrite animateVariant_eq. cbv zeta. cbn [self].
  destruct (match variants s !! variantLabel with
            | Some v => match ch with
                        | Some _ => orchestration (r_transition (resolveVariant (Some v) None))
                        | None => orchestration None
                        end
            | None => orchestration None
            end) as [[[[b a] dC] sC] sD].
  destruct (b || a); [destruct b |].
  - destruct (variants s !! variantLabel) as [v|]; [| by left].
    right. exists v. split; [done |]. by destruct (animate (Some v) opts s).
  - left.
    pose proof (animateChildren_self variantLabel dC sC sD
                  (default 0%nat (priority opts)) (Controls s ch)) as Hs.
    by destruct (animateChildren _ _ _ _ _ _).
  - destruct (variants s !! variantLabel) as [v|].
    + right. exists v. split; [done |].
      destruct (animate (Some v) opts s) as [s' own].
      pose proof (animateChildren_self variantLabel dC sC sD
                    (default 0%nat (priority opts)) (Controls s' ch)) as Hs.
      by destruct (animateChildren _ _ _ _ _ _).
    + left.
      pose proof (animateChildren_self variantLabel dC sC sD
                    (default 0%nat (priority opts)) (Controls s ch)) as Hs.
      by destruct (animateChildren _ _ _ _ _ _).
Qed.

Lemma animateVariant_self_now variantLabel opts s ch v :
  variants s !! variantLabel = Some v →
  ownAnimationWaits v ch = false →
  self (animateVariant variantLabel opts (Controls s ch)).1
  = (animate (Some v) opts s).1.
Proof.
  intros Hv Hnow. rewrite animateVariant_eq. cbv zeta. rewrite Hv.
  unfold ownAnimationWaits in Hnow.
  destruct ch as [l|].
  - destruct (orchestration _) as [[[[b a] dC] sC] sD].
    destruct b; cbn in Hnow; [| rewrite Hnow]; cbn [orb].
    + destruct (animate (Some v) opts s); reflexivity.
    + destruct (animate (Some v) opts s) as [s' own].
      pose proof (animateChildren_self variantLabel dC sC sD
                    (default 0%nat (priority opts)) (Controls s' (Some l))) as Hs.
      by destruct (animateChildren _ _ _ _ _ _).
  - cbn [orchestration orb]. destruct (animate (Some v) opts s); reflexivity.
Qed.

Lemma animateVariant_absent variantLabel opts c :
  variants (self c) !! variantLabel = None →
  self (animateVariant variantLabel opts c).1 = self c
  ∧ ∃ kids, (animateVariant variantLabel opts c).2 = PAll [PResolved; kids]
            ∧ (children c = None → kids = PResolved).
Proof.
  intros Hv. destruct c as [s ch]. cbn [self children] in *.
  rewrite animateVariant_eq. cbv zeta. rewrite Hv. cbn.
  pose proof (animateChildren_self variantLabel 0 0 1
                (default 0%nat (priority opts)) (Controls s ch)) as Hs.
  unfold animateChildren in *. cbn [children self] in *.
  destruct ch as [l|].
  - destruct (forEachChild _ 0 l) as [l' ps]. cbn. split; [done |].
    eexists. split; [done | done].
  - cbn. split; [done |]. by eexists.
Qed.

Lemma animateVariant_config variantLabel opts c :
  config (self (animateVariant variantLabel opts c).1) = config (self c).
Proof.
  destruct (animateVariant_self variantLabel opts c) as [-> | (v & _ & ->)];
    [done | apply animate_config].
Qed.

Lemma foldl_animateVariant_config opts l c ps :
  config (self (foldl
                  (λ '(c, animations) label,
                     let '(c, animation) := animateVariant label opts c in
                     (c, animations ++ [animation]))
                  (c, ps) l).1)
  = config (self c).
Proof.
  revert c ps. induction l as [|label l IH]; intros c ps; [done |].
  cbn [foldl].
  pose proof (animateVariant_config label opts c) as Hc.
  destruct (animateVariant label opts c) as [c1 p1]. cbn [fst] in Hc.
  rewrite <- Hc. apply IH.
Qed.

Lemma animateVariantLabels_config labels opts c :
  config (self (animateVariantLabels labels opts c).1) = config (self c).
Proof.
  unfold animateVariantLabels.
  pose proof (foldl_animateVariant_config opts (reverse labels) c []) as Hc.
  by destruct (foldl _ _ _).
Qed.

Lemma animateSelf_config variant opts c :
  config (self (animateSelf variant opts c).1) = config (self c).
Proof.
  unfold animateSelf. pose proof (animate_config variant opts (self c)) as Hc.
  by destruct (animate variant opts (self c)).
Qed.

Lemma animateSelf_self variant opts c :
  self (animateSelf variant opts c).1 = (animate variant opts (self c)).1.
Proof. unfold animateSelf. by destruct (animate variant opts (self c)). Qed.

(** The override stack after [setPriorityAnimation]. *)
Lemma setPriorityAnimation_other definition p s i :
  i ≠ p →
  (occupied (setPriorityAnimation definition p s) i ↔ occupied s i).
Proof.
  intros Hne. unfold occupied, setPriorityAnimation. cbn. case_decide as Hp.
  - by rewrite list_lookup_insert_ne.
  - destruct (decide (i < length (overrides s))) as [Hi|Hi].
    + by rewrite lookup_app_l.
    + rewrite lookup_app_r by lia.
      rewrite (lookup_ge_None_2 (overrides s)) by lia.
      split; [| by intros [d Hd]].
      intros [d Hd].
      destruct (decide (i - length (overrides s) < p - length (overrides s))) as [Hj|Hj].
      * rewrite lookup_app_l in Hd by (by rewrite length_replicate).
        apply lookup_replicate in Hd as [Hd _]. done.
      * rewrite lookup_app_r in Hd by (rewrite length_replicate; lia).
        rewrite length_replicate in Hd.
        destruct (i - length (overrides s) - (p - length (overrides s)))%nat eqn:E;
          [lia | done].
Qed.

Lemma setPriorityAnimation_same definition p s :
  overrides s !! p = Some (Some definition) →
  setPriorityAnimation definition p s = s.
Proof.
  intros Hp. unfold setPriorityAnimation.
  rewrite decide_True by (by apply lookup_lt_Some in Hp).
  rewrite list_insert_id by done. by destruct s.
Qed.

End tree_facts.

(** ** [start] *)

Section start_facts.
Context {ext : Collaborators}.

Lemma start_deferred_eq definition opts c p i :
  priority opts = Some p → p < i → occupied (self c) i →
  start definition opts c
  = (Controls (with_overrides (<[p := Some definition]> (overrides (self c)))
                 (self c)) (children c),
     PResolved).
Proof.
  intros Hp Hlt Hocc. unfold start. rewrite Hp. cbv zeta.
  cbn [default from_option id self children].
  assert (isHighestPriority p (setPriorityAnimation definition p (self c)) = false) as ->.
  { apply isHighestPriority_false. exists i. split; [done |].
    apply setPriorityAnimation_other; [lia | done]. }
  cbn [negb]. unfold setPriorityAnimation.
  rewrite decide_True; [done |].
  destruct Hocc as [d Hd]. apply lookup_lt_Some in Hd. lia.
Qed.

(** C1, amended: a call of [start] that names its priority [p], on a
    controller with an occupied slot above [p], records the definition in
    slot [p] and returns a resolved promise; no tracked value, no base
    target, no [isAnimating] entry and no child changes. *)
Theorem start_lower_priority_deferred (definition : AnimationDefinition)
    (opts : AnimationOptions) (c : AnimationControls) (p i : nat) :
  priority opts = Some p → p < i → occupied (self c) i →
  (start definition opts c).2 = PResolved
  ∧ overrides (self (start definition opts c).1) !! p = Some (Some definition)
  ∧ (∀ j, j ≠ p →
       overrides (self (start definition opts c).1) !! j = overrides (self c) !! j)
  ∧ values (self (start definition opts c).1) = values (self c)
  ∧ baseTarget (self (start definition opts c).1) = baseTarget (self c)
  ∧ isAnimating (self (start definition opts c).1) = isAnimating (self c)
  ∧ children (start definition opts c).1 = children c.
Proof.
  intros Hp Hlt Hocc.
  rewrite (start_deferred_eq definition opts c p i Hp Hlt Hocc). cbn.
  assert (p < length (overrides (self c))) as Hlen.
  { destruct Hocc as [d Hd]. apply lookup_lt_Some in Hd. lia. }
  split; [done |]. split; [by apply list_lookup_insert_eq |].
  split; [| done]. intros j Hj. by apply list_lookup_insert_ne.
Qed.

Lemma start_accepted definition opts c :
  accepted opts c →
  start definition opts c
  = let c := resetIsAnimating
               (Controls (setPriorityAnimation definition
                            (default 0%nat (priority opts)) (self c))
                  (children c)) in
    match definition with
    | DLabels labels => animateVariantLabels labels opts c
    | DLabel label => animateVariant label opts c
    | DVariant v => animateSelf (Some v) opts c
    end.
Proof.
  intros Hacc. unfold start, accepted in *.
  destruct (priority opts) as [p|] eqn:Hp; [| done].
  cbv zeta. cbn [default from_option id self].
  destruct (isHighestPriority p _) eqn:E; [done |].
  apply isHighestPriority_false in E as (i & Hlt & Hi).
  apply setPriorityAnimation_other in Hi; [| lia]. by destruct (Hacc i).
Qed.

Lemma start_label_self label opts c :
  variants (self c) !! label = None →
  values (self (start (DLabel label) opts c).1) = values (self c)
  ∧ baseTarget (self (start (DLabel label) opts c).1) = baseTarget (self c)
  ∧ (children c = None → settled (start (DLabel label) opts c).2 = true).
Proof.
  intros Hv. unfold start. cbv zeta.
  destruct (match priority opts with
            | Some p => negb (isHighestPriority p _)
            | None => false
            end); [done |].
  set (c1 := resetIsAnimating _).
  assert (variants (self c1) !! label = None) as Hv1.
  { subst c1. by rewrite self_resetIsAnimating. }
  destruct (animateVariant_absent label opts c1 Hv1) as (Hs & kids & Hp & Hk).
  rewrite Hs, Hp. subst c1. rewrite self_resetIsAnimating. cbn.
  split; [done |]. split; [done |]. intros Hch. rewrite Hk; [done |].
  by rewrite Hch.
Qed.

(** C8: a variant resolves with no target exactly when it is absent.  Such
    a variant makes [animate] return a resolved promise with the controller
    as it was; [start] of a label whose variant is absent leaves every
    tracked value and the base target of the controller alone, and on a
    controller without children its promise is settled at once. *)
Theorem no_target_no_mutation :
  (∀ (variant : option Variant) (props : option Props),
     r_target (resolveVariant variant props) = None ↔ variant = None)
  ∧ (∀ (variant : option Variant) (opts : AnimationOptions) (s : Fields),
       r_target (resolveVariant variant None) = None →
       animate variant opts s = (s, PResolved))
  ∧ (∀ (label : string) (opts : AnimationOptions) (c : AnimationControls),
       r_target (resolveVariant (variants (self c) !! label)
                   (props (self c))) = None →
       values (self (start (DLabel label) opts c).1) = values (self c)
       ∧ baseTarget (self (start (DLabel label) opts c).1) = baseTarget (self c)
       ∧ (children c = None → settled (start (DLabel label) opts c).2 = true)).
Proof.
  split; [| split].
  - intros variant props. by destruct variant.
  - intros variant opts s Hr. unfold animate. by rewrite Hr.
  - intros label opts c Hr. apply start_label_self.
    by destruct (variants (self c) !! label).
Qed.

(** *** The base target *)

Lemma values_foldl_seedValue l s :
  values (foldl seedValue s l)
  = foldl (λ vs key, <[key := motionValue (styler_get key)]> vs) (values s) l.
Proof. revert s. induction l as [|k l IH]; intros s; [done |]. cbn [foldl]. by rewrite IH. Qed.

Lemma checkForNewValues_values target s s' :
  values s = values s' →
  values (checkForNewValues target s) = values (checkForNewValues target s').
Proof.
  intros Hv. unfold checkForNewValues. rewrite !values_foldl_seedValue.
  by rewrite Hv.
Qed.

Lemma resolvedTarget_values v s s' :
  values s = values s' → resolvedTarget v s = resolvedTarget v s'.
Proof.
  intros Hv. unfold resolvedTarget.
  by rewrite (checkForNewValues_values _ s s' Hv).
Qed.

Lemma checkForNewValues_keeps target s key :
  is_Some (values s !! key) →
  is_Some (values (checkForNewValues target s) !! key).
Proof. intros Hk. apply foldl_seedValue_tracked. by left. Qed.

(** [animate] on a present variant, in terms of the resolved target. *)
Lemma animate_present v opts s :
  animate (Some v) opts s
  = let r := resolveVariant (Some v) None in
    let s1 := checkForNewValues (declaredTarget v) s in
    let transition :=
      match r_transition r with
      | None => defaultTransition s1
      | Some t => Some t
      end in
    let '(s2, animations) :=
      foldl (animateKey (resolvedTarget v s) transition
               (default 0%Q (delay opts)) (default 0%nat (priority opts)))
        (s1, []) (keys (resolvedTarget v s)) in
    (s2, PThen (PAll animations) (DTransitionEnd (resolvedTransitionEnd v s))).
Proof. reflexivity. Qed.

(** The view of a key of the resolved target once the pass is over. *)
Lemma animate_view v opts s key :
  is_Some (resolvedTarget v s !! key) →
  let r := resolveVariant (Some v) None in
  let s1 := checkForNewValues (declaredTarget v) s in
  view key (animate (Some v) opts s).1
  = view key
      (animateKey (resolvedTarget v s)
         (match r_transition r with
          | None => defaultTransition s1
          | Some t => Some t
          end)
         (default 0%Q (delay opts)) (default 0%nat (priority opts))
         (s1, []) key).1.
Proof.
  intros Hk r s1. rewrite animate_present. cbv zeta. fold r s1.
  match goal with
  | |- context [foldl (animateKey ?t ?tr ?d ?p) ?acc ?ks] =>
      pose proof (foldl_animateKey_in t tr d p ks s1 [] key) as Hin;
      destruct (foldl (animateKey t tr d p) acc ks) as [s' a]
  end.
  cbn [fst] in *. apply Hin; [apply keys_NoDup | by apply elem_of_keys].
Qed.

Lemma animate_baseTarget v opts s key x :
  default 0%nat (priority opts) = 0%nat →
  resolvedTarget v s !! key = Some x → x ≠ VUndefined →
  key ∉ isAnimating s →
  is_Some (declaredTarget v !! key) ∨ is_Some (values s !! key) →
  baseTarget (animate (Some v) opts s).1 !! key = Some x.
Proof.
  intros Hp Hx Hdef Hnot Htracked.
  pose proof (animate_view v opts s key) as Hview.
  rewrite Hx in Hview. specialize (Hview (mk_is_Some _ _ eq_refl)).
  cbv zeta in Hview. unfold view in Hview at 1. injection Hview as _ Hb _.
  rewrite Hb. clear Hb. unfold animateKey.
  rewrite decide_False by (by rewrite checkForNewValues_isAnimating).
  assert (is_Some (values (checkForNewValues (declaredTarget v) s) !! key)) as [value Hval].
  { destruct Htracked; [by apply checkForNewValues_tracked
                       | by apply checkForNewValues_keeps]. }
  rewrite Hval. unfold prop_get. rewrite Hx. cbn [default].
  destruct x; [done | |]; cbn [is_undefined]; rewrite Hp; cbn [Nat.eqb].
  - cbn. by rewrite lookup_insert_eq.
  - destruct (isAnimatable _); cbn; by rewrite lookup_insert_eq.
Qed.

Lemma start_variant_baseTarget c v2 o2 key x :
  default 0%nat (priority o2) = 0%nat →
  accepted o2 c →
  resolvedTarget v2 (self c) !! key = Some x →
  x ≠ VUndefined →
  is_Some (declaredTarget v2 !! key) ∨ is_Some (values (self c) !! key) →
  baseTarget (self (start (DVariant v2) o2 c).1) !! key = Some x.
Proof.
  intros Hp Hacc Hx Hdef Htracked.
  rewrite (start_accepted _ _ _ Hacc). cbv zeta.
  rewrite animateSelf_self, self_resetIsAnimating. cbn [self].
  apply animate_baseTarget; try done.
  rewrite <- Hx. f_equal. by apply resolvedTarget_values.
Qed.

Lemma start_label_baseTarget c label v2 o2 key x :
  default 0%nat (priority o2) = 0%nat →
  accepted o2 c →
  variants (self c) !! label = Some v2 →
  ownAnimationWaits v2 (children c) = false →
  resolvedTarget v2 (self c) !! key = Some x →
  x ≠ VUndefined →
  is_Some (declaredTarget v2 !! key) ∨ is_Some (values (self c) !! key) →
  baseTarget (self (start (DLabel label) o2 c).1) !! key = Some x.
Proof.
  intros Hp Hacc Hv Hnow Hx Hdef Htracked.
  rewrite (start_accepted _ _ _ Hacc). cbv zeta.
  destruct c as [s ch]. cbn [self children] in *.
  cbn [resetIsAnimating].
  rewrite (animateVariant_self_now label o2 _ _ v2); [| done |].
  - apply animate_baseTarget; try done.
    rewrite <- Hx. f_equal. by apply resolvedTarget_values.
  - by destruct ch.
Qed.

(** C7: a pass at priority 0 records, for every key of its resolved target
    that is not yet animating in the pass, the resolved value as the base
    target; so after a second accepted [start] at priority 0, of an explicit
    target or of a label whose own animation does not wait for the children,
    the base target of the keys of its target holds the values the second
    call resolved. *)
Theorem priority0_records_baseTarget :
  (∀ (v : Variant) (opts : AnimationOptions) (s : Fields) (key : string) (x : Val),
     default 0%nat (priority opts) = 0%nat →
     resolvedTarget v s !! key = Some x → x ≠ VUndefined →
     key ∉ isAnimating s →
     is_Some (declaredTarget v !! key) ∨ is_Some (values s !! key) →
     baseTarget (animate (Some v) opts s).1 !! key = Some x)
  ∧ (∀ (c : AnimationControls) (d1 : AnimationDefinition) (v2 : Variant)
       (o1 o2 : AnimationOptions) (key : string) (x : Val),
       default 0%nat (priority o2) = 0%nat →
       accepted o2 (start d1 o1 c).1 →
       resolvedTarget v2 (self (start d1 o1 c).1) !! key = Some x →
       x ≠ VUndefined →
       is_Some (declaredTarget v2 !! key)
       ∨ is_Some (values (self (start d1 o1 c).1) !! key) →
       baseTarget (self (start (DVariant v2) o2 (start d1 o1 c).1).1) !! key
       = Some x)
  ∧ (∀ (c : AnimationControls) (d1 : AnimationDefinition) (label : string)
       (v2 : Variant) (o1 o2 : AnimationOptions) (key : string) (x : Val),
       default 0%nat (priority o2) = 0%nat →
       accepted o2 (start d1 o1 c).1 →
       variants (self (start d1 o1 c).1) !! label = Some v2 →
       ownAnimationWaits v2 (children (start d1 o1 c).1) = false →
       resolvedTarget v2 (self (start d1 o1 c).1) !! key = Some x →
       x ≠ VUndefined →
       is_Some (declaredTarget v2 !! key)
       ∨ is_Some (values (self (start d1 o1 c).1) !! key) →
       baseTarget (self (start (DLabel label) o2 (start d1 o1 c).1).1) !! key
       = Some x).
Proof.
  split; [apply animate_baseTarget |]. split.
  - intros c d1 v2 o1 o2 key x. apply start_variant_baseTarget.
  - intros c d1 label v2 o1 o2 key x. apply start_label_baseTarget.
Qed.

End start_facts.

(** ** [clearOverride] *)

Section clear_facts.
Context {ext : Collaborators}.

Lemma highestFrom_spec ov i h :
  let r := highestFrom i ov h in
  (∀ j d, ov !! j = Some (Some d) → (i + j ≤ r)%nat)
  ∧ ((∃ j d, ov !! j = Some (Some d) ∧ r = (i + j)%nat)
     ∨ (r = h ∧ ∀ j d, ov !! j ≠ Some (Some d))).
Proof.
  revert i h. induction ov as [|o ov IH]; intros i h; cbn [highestFrom].
  - split; [by intros j d Hj |]. right. split; [done |]. by intros j d Hj.
  - specialize (IH (S i) (match o with Some _ => i | None => h end)).
    cbv zeta in *. destruct IH as [Hmax Hfound]. split.
    + intros [|j] d Hj.
      * cbn in Hj. injection Hj as ->.
        destruct Hfound as [(j' & d' & _ & ->) | [-> _]]; lia.
      * specialize (Hmax j d Hj). lia.
    + destruct Hfound as [(j' & d' & Hj' & ->) | [Hr Hnone]].
      * left. exists (S j'), d'. split; [done | lia].
      * destruct o as [d|].
        -- left. exists 0%nat, d. split; [done | lia].
        -- right. split; [done |]. intros [|j] d Hj; [done |]. by eapply Hnone.
Qed.

Lemma getHighestPriority_spec s :
  let h := getHighestPriority s in
  (∀ j, occupied s j → j ≤ h)
  ∧ (occupied s h ∨ (h = 0%nat ∧ ∀ j, ¬ occupied s j)).
Proof.
  unfold getHighestPriority, occupied.
  destruct (highestFrom_spec (overrides s) 0 0) as [Hmax Hfound]. cbv zeta in *.
  split.
  - intros j [d Hd]. by apply (Hmax j d).
  - destruct Hfound as [(j & d & Hj & ->) | [-> Hnone]].
    + left. by exists d.
    + right. split; [done |]. intros j [d Hd]. by eapply Hnone.
Qed.

Lemma getHighestPriority_unique s h :
  occupied s h → (∀ j, h < j → ¬ occupied s j) → getHighestPriority s = h.
Proof.
  intros Hocc Hmax. destruct (getHighestPriority_spec s) as [Hle Hfound].
  cbv zeta in *. specialize (Hle h Hocc).
  destruct Hfound as [Hh | [_ Hnone]]; [| by destruct (Hnone h)].
  destruct (decide (h < getHighestPriority s)) as [Hlt|]; [| lia].
  by destruct (Hmax _ Hlt).
Qed.


Lemma start_config definition opts c :
  config (self (start definition opts c).1)
  = config (setPriorityAnimation definition (default 0%nat (priority opts)) (self c)).
Proof.
  unfold start. cbv zeta.
  destruct (match priority opts with
            | Some p => negb (isHighestPriority p _)
            | None => false
            end); [done |].
  destruct definition as [labels|label|v].
  - by rewrite animateVariantLabels_config, self_resetIsAnimating.
  - by rewrite animateVariant_config, self_resetIsAnimating.
  - by rewrite animateSelf_config, self_resetIsAnimating.
Qed.



Lemma clearOverride_set i c d :
  overrides (self c) !! i = Some (Some d) → truthy d = true →
  clearOverride i c =
    let cleared := resetIsAnimating (unsetSlot i c) in
    let highest := getHighestPriority (self cleared) in
    if decide (i < highest) then (cleared, PResolved)
    else
      let '(mid, restarted) :=
        match overrides (self cleared) !! highest with
        | Some (Some highestOverride) =>
            if truthy highestOverride then
              start highestOverride {| delay := None; priority := Some highest |}
                cleared
            else (cleared, PResolved)
        | _ => (cleared, PResolved)
        end in
      let '(c, reapplied) :=
        animateSelf (Some (baseVariant (self mid))) noOptions mid in
      (c, PAll [restarted; reapplied]).
Proof.
  intros Hd Ht. unfold clearOverride. rewrite Hd, Ht. cbv zeta.
  fold (unsetSlot i c). rewrite self_resetIsAnimating. done.
Qed.



End clear_facts.

(** ** The event loop *)

Section loop_facts.
Context {ext : Collaborators}.

Lemma step_resolved c ev y : ¬ step (c, PResolved) ev y.
Proof. intros Hs. inversion Hs. Qed.

Lemma steps_resolved c evs z : steps (c, PResolved) evs z → evs = [] ∧ z = (c, PResolved).
Proof.
  intros Hs. inversion Hs as [|x ev y evs' z' Hstep Hrest]; subst; [done |].
  by apply step_resolved in Hstep.
Qed.

Lemma settled_controls ps :
  Forall isControl ps → forallb settled ps = true → Forall (λ p, p = PResolved) ps.
Proof.
  induction 1 as [|p ps [->|[key ->]] _ IH]; intros Hs; [done | | done].
  cbn in Hs. constructor; [done | by apply IH].
Qed.

(** One turn of the loop on the promise of a pass: an animation settles,
    or every animation has settled and the callback runs. *)
Lemma step_pass c ps K ev y :
  Forall isControl ps →
  step (c, PThen (PAll ps) K) ev y →
  (∃ key ps1 ps2,
      ps = ps1 ++ PControl key :: ps2 ∧ ev = EvSettle key
      ∧ y = (c, PThen (PAll (ps1 ++ PResolved :: ps2)) K))
  ∨ (ev = EvThen K ∧ Forall (λ p, p = PResolved) ps ∧ y = runDeferred K c).
Proof.
  intros Hps Hstep.
  inversion Hstep as [| c0 p0 k0 c' p' Hset Hrun | c0 p0 k0 ev0 c' p' Hin | |]; subst.
  - right. split; [done |]. split; [| done]. by apply settled_controls.
  - left. inversion Hin as [| | | c1 ps1 p ps2 ev1 c1' p1' Hp |]; subst.
    assert (isControl p) as [->|[key ->]].
    { rewrite Forall_forall in Hps. apply Hps. set_solver. }
    + by apply step_resolved in Hp.
    + inversion Hp; subst. by exists key, ps1, ps2.
Qed.

Lemma steps_pass evs : ∀ c ps K z,
  Forall isControl ps →
  (∀ c0, (runDeferred K c0).2 = PResolved) →
  steps (c, PThen (PAll ps) K) evs z →
  (Forall isSettle evs
   ∧ ∃ ps', z = (c, PThen (PAll ps') K)
            ∧ ∀ key, PControl key ∈ ps → PControl key ∈ ps' ∨ EvSettle key ∈ evs)
  ∨ (∃ settles, evs = settles ++ [EvThen K]
                ∧ Forall isSettle settles
                ∧ (∀ key, PControl key ∈ ps → EvSettle key ∈ settles)
                ∧ z = runDeferred K c).
Proof.
  induction evs as [|ev evs IH]; intros c ps K z Hps HK Hsteps.
  - inversion Hsteps; subst. left. split; [done |]. exists ps. split; [done | by left].
  - inversion Hsteps as [|x ev0 y evs0 z0 Hstep Hrest]; subst.
    apply step_pass in Hstep as
      [(key & ps1 & ps2 & -> & -> & ->) | (-> & Hall & ->)]; [| | done].
    + assert (Forall isControl (ps1 ++ PResolved :: ps2)) as Hps'.
      { apply Forall_app in Hps as [H1 H2]. apply Forall_cons in H2 as [_ H2].
        apply Forall_app. split; [done |]. constructor; [by left | done]. }
      destruct (IH c _ K z Hps' HK Hrest)
        as [(Hevs & ps' & -> & Hkeys) | (settles & -> & Hset & Hkeys & ->)].
      * left. split; [constructor; [by exists key | done] |].
        exists ps'. split; [done |]. intros key' Hin.
        assert (key' = key ∨ PControl key' ∈ ps1 ++ PResolved :: ps2) as [->|Hin'].
        { set_solver. }
        -- right. set_solver.
        -- destruct (Hkeys key' Hin'); [by left | right; set_solver].
      * right. exists (EvSettle key :: settles). split; [done |].
        split; [constructor; [by exists key | done] |]. split; [| done].
        intros key' Hin.
        assert (key' = key ∨ PControl key' ∈ ps1 ++ PResolved :: ps2) as [->|Hin'].
        { set_solver. }
        -- set_solver.
        -- specialize (Hkeys key' Hin'). set_solver.
    + right. exists []. specialize (HK c).
      destruct (runDeferred K c) as [c1 p1]. cbn in HK. subst p1.
      apply steps_resolved in Hrest as [-> ->].
      split; [done |]. split; [done |]. split; [| done].
      intros key Hin. rewrite Forall_forall in Hall.
      by specialize (Hall _ Hin).
Qed.

(** The promises of a pass. *)
Lemma foldl_animateKey_keeps target transition delay priority ks acc p :
  p ∈ acc.2 → p ∈ (foldl (animateKey target transition delay priority) acc ks).2.
Proof.
  revert acc. induction ks as [|k ks IH]; intros acc Hp; [done |].
  cbn [foldl]. apply IH. destruct acc as [s a]. unfold animateKey.
  case_decide; [done |]. destruct (values s !! k); [| done].
  destruct (is_undefined _); [done |].
  destruct (isAnimatable _); cbn; [set_solver | done].
Qed.

Lemma foldl_animateKey_awaits target transition delay priority ks s a key :
  NoDup ks → key ∈ ks →
  key ∉ isAnimating s → is_Some (values s !! key) →
  isAnimatable (prop_get target key) = true →
  PControl key ∈ (foldl (animateKey target transition delay priority) (s, a) ks).2.
Proof.
  revert s a. induction ks as [|k ks IH]; intros s a Hnd Hin Hnot Hval Han;
    [set_solver |].
  apply NoDup_cons in Hnd as [Hk Hnd]. cbn [foldl].
  destruct (decide (key = k)) as [<-|Hne].
  - apply foldl_animateKey_keeps. unfold animateKey.
    rewrite decide_False by done. destruct Hval as [value ->].
    destruct (prop_get target key) eqn:E; [done | |];
      cbn [is_undefined]; rewrite Han; cbn; set_solver.
  - pose proof (animateKey_other target transition delay priority (s, a) key k Hne) as Hv.
    destruct (animateKey target transition delay priority (s, a) k) as [s1 a1].
    cbn [fst] in Hv. unfold view in Hv. injection Hv as Hv1 _ Hv3.
    apply IH; [done | set_solver | | by rewrite Hv1 | done].
    intros Hin1. apply Hnot. by apply (bool_decide_agree _ _ Hv3).
Qed.

End loop_facts.

(** ** Resolver functions *)

Section resolver_facts.
Context {ext : Collaborators}.

(** [animate] calls [resolveVariant] without props: a resolver is invoked
    with [undefined], whatever the props of the controller are. *)
Lemma animate_resolver_undefined_props f opts s :
  animate (Some (VResolver f)) opts s = animate (Some (VObject (f None))) opts s.
Proof. reflexivity. Qed.

(** [applyVariantLabels] hands the props of the controller to the resolver. *)
Lemma applyVariantLabel_resolver_props f s isSetting key :
  variants s !! key = Some (VResolver f) →
  applyVariantLabel (s, isSetting) key
  = let acc :=
      match tt_transitionEnd (f (props s)) with
      | Some transitionEnd => setValues transitionEnd isSetting s
      | None => (s, isSetting)
      end in
    setValues (tt_target (f (props s))) acc.2 acc.1.
Proof. intros Hv. unfold applyVariantLabel. by rewrite Hv. Qed.

End resolver_facts.

(** * The facts on the sample configurations *)

(** ** Priorities *)

Lemma isHighestPriority_spec_witness :
  (∃ i, 1 < i ∧ occupied (self sampleControls) i)
  ∧ isHighestPriority 1 (self sampleControls) = false.
Proof.
  assert (∃ i, 1 < i ∧ occupied (self sampleControls) i) as Hex.
  { exists 2. split; [lia | by exists pressed]. }
  split; [exact Hex |].
  by apply (proj1 (isHighestPriority_spec 1 (self sampleControls))).
Defined.

Lemma start_lower_priority_deferred_witness :
  priority (atPriority 1) = Some 1
  ∧ 1 < 2
  ∧ occupied (self sampleControls) 2
  ∧ (start (ext := sampleCollaborators) hovered (atPriority 1) sampleControls).2
    = PResolved
  ∧ overrides
      (self (start (ext := sampleCollaborators) hovered (atPriority 1)
               sampleControls).1) !! 1
    = Some (Some hovered)
  ∧ values
      (self (start (ext := sampleCollaborators) hovered (atPriority 1)
               sampleControls).1)
    = values (self sampleControls)
  ∧ isAnimating
      (self (start (ext := sampleCollaborators) hovered (atPriority 1)
               sampleControls).1)
    = isAnimating (self sampleControls).
Proof.
  assert (occupied (self sampleControls) 2) as Hocc by (by exists pressed).
  assert (1 < 2) as Hlt by lia.
  destruct (start_lower_priority_deferred (ext := sampleCollaborators)
              hovered (atPriority 1) sampleControls 1 2 eq_refl Hlt Hocc)
    as (Hp & Hrec & _ & Hval & _ & Han & _).
  done.
Defined.

(** C1, as stated, fails: without [priority] in its options [start] records
    the definition in slot 0 and animates although slot 2 is occupied; the
    promise is pending, [x] is handed to [control] and the [isAnimating] set
    is replaced. *)
Lemma start_default_priority_animates :
  occupied (self sampleControls) 2
  ∧ default 0 (priority noOptions) < 2
  ∧ overrides
      (self (start (ext := sampleCollaborators) (DVariant (moveTo 1)) noOptions
               sampleControls).1) !! 0
    = Some (Some (DVariant (moveTo 1)))
  ∧ (start (ext := sampleCollaborators) (DVariant (moveTo 1)) noOptions
       sampleControls).2
    = PThen (PAll [PControl "x"]) (DTransitionEnd None)
  ∧ values (self sampleControls) !! "x" = Some (motionValue (VNumber 0))
  ∧ values
      (self (start (ext := sampleCollaborators) (DVariant (moveTo 1)) noOptions
               sampleControls).1) !! "x"
    = Some {| mv_current := VNumber 0;
              mv_controlled := Some (mkPlayback "x" (VNumber 1) 0 None) |}
  ∧ "scale" ∈ isAnimating (self sampleControls)
  ∧ "scale" ∉ isAnimating
                (self (start (ext := sampleCollaborators) (DVariant (moveTo 1))
                         noOptions sampleControls).1).
Proof.
  split; [by exists pressed |]. split; [cbn; lia |].
  repeat split; by vm_compute.
Qed.

(** ** [clearOverride] *)



(** ** Resolver functions *)

(** C3, on the code: the controller holds the props [{ x: 100 }] and the
    variant [moved] reads [x] off its props.  [start] of the label or of the
    resolver itself animates [x] to 0, the value the resolver gives without
    props; [applyVariantLabels] sets [x] to 100. *)
Theorem animate_resolver_ignores_props :
  props propsFields = Some {["x" := VNumber 100]}
  ∧ values (self (start (ext := sampleCollaborators) (DLabel "moved") noOptions
                    (Controls propsFields None)).1) !! "x"
    = Some {| mv_current := VNumber 50;
              mv_controlled := Some (mkPlayback "x" (VNumber 0) 0 None) |}
  ∧ values (self (start (ext := sampleCollaborators) (DVariant fromProps)
                    noOptions (Controls propsFields None)).1) !! "x"
    = Some {| mv_current := VNumber 50;
              mv_controlled := Some (mkPlayback "x" (VNumber 0) 0 None) |}
  ∧ values (applyVariantLabels ["moved"] propsFields) !! "x"
    = Some (motionValue (VNumber 100)).
Proof. repeat split; by vm_compute. Qed.

(** ** Stagger *)

Lemma stagger_delay_symmetric_witness :
  [leaf; leaf; leaf] !! 0 = Some leaf
  ∧ (∀ d d',
       delay (staggered 0 (-1) 0) = Some d →
       delay (staggered 0 1 2) = Some d' →
       (d == d')%Q)
  ∧ Binary64.eqb
      (Binary64.childDelay 3 (Binary64.ofZ 0) tenth (Binary64.ofZ (-1)) 0)
      (Binary64.childDelay 3 (Binary64.ofZ 0) tenth (Binary64.ofZ 1) 2)
    = true.
Proof.
  split; [reflexivity |].
  destruct (stagger_delay_symmetric (ext := sampleCollaborators) "hidden"
              (1 # 2) (1 # 10) 0 fadeFields [leaf; leaf; leaf] 0 leaf eq_refl)
    as (_ & _ & Hsym & _ & Hends).
  split.
  - intros d d'. apply (Hsym (-1)%Q d d'). by vm_compute.
  - apply (Hends (Binary64.ofZ 0) tenth (Binary64.ofZ (-1))); reflexivity.
Defined.

(** C4, as stated, fails in double arithmetic for a child in between: with
    [staggerChildren = 0.1] and four children the reversed delay of child 1
    is [0.20000000000000004] and the forward delay of child [4 - 1 - 1] is
    [0.2]. *)
Lemma stagger_reversed_inner_differs :
  tenth = SpecFloat.S754_finite false 7205759403792794 (-56)
  ∧ Binary64.eqb (Binary64.ofZ (-1)) (Binary64.ofZ 1) = false
  ∧ Binary64.childDelay 4 (Binary64.ofZ 0) tenth (Binary64.ofZ (-1)) 1
    = SpecFloat.S754_finite false 7205759403792795 (-55)
  ∧ Binary64.childDelay 4 (Binary64.ofZ 0) tenth (Binary64.ofZ 1) (4 - 1 - 1)
    = SpecFloat.S754_finite false 7205759403792794 (-55)
  ∧ Binary64.eqb
      (Binary64.childDelay 4 (Binary64.ofZ 0) tenth (Binary64.ofZ (-1)) 1)
      (Binary64.childDelay 4 (Binary64.ofZ 0) tenth (Binary64.ofZ 1) (4 - 1 - 1))
    = false.
Proof. repeat split; by vm_compute. Qed.

(** ** The fade *)

Lemma fadeOut_steps :
  steps (ext := sampleCollaborators) (Controls fadeOut.1 None, fadeOut.2)
    [EvSettle "opacity"; EvThen snapDisplay] fadedOut.
Proof.
  eapply steps_cons.
  - apply step_awaited. apply (step_all _ [] (PControl "opacity") []).
    apply step_settle.
  - eapply steps_cons; [| apply steps_nil].
    apply step_then; reflexivity.
Defined.

(** [start("hidden")] hands [opacity] to [control] and leaves [display] at
    ["block"]; [display] is ["none"] once the callback has run. *)
Example display_kept_until_settled :
  (start (ext := sampleCollaborators) (DLabel "hidden") noOptions
     (Controls fadeFields None)).2
  = PAll [fadeOut.2; PResolved]
  ∧ values (self (start (ext := sampleCollaborators) (DLabel "hidden") noOptions
                    (Controls fadeFields None)).1)
    = values fadeOut.1
  ∧ fadeOut.2 = PThen (PAll [PControl "opacity"]) snapDisplay
  ∧ values fadeOut.1 !! "display" = Some (motionValue (VString "block"))
  ∧ values (self fadedOut.1) !! "display" = Some (motionValue (VString "none")).
Proof. repeat split; by vm_compute. Qed.

(** ** The base target and absent variants *)

Lemma priority0_records_baseTarget_witness :
  default 0 (priority noOptions) = 0
  ∧ baseTarget
      (self (start (ext := sampleCollaborators) (DVariant (moveTo 2)) noOptions
               (start (ext := sampleCollaborators) (DVariant (moveTo 1))
                  noOptions sampleControls).1).1) !! "x"
    = Some (VNumber 2).
Proof.
  split; [reflexivity |].
  apply (proj1 (proj2 (priority0_records_baseTarget (ext := sampleCollaborators)))).
  - reflexivity.
  - exact I.
  - reflexivity.
  - done.
  - left. by eexists.
Defined.

Lemma no_target_no_mutation_witness :
  r_target (resolveVariant None None) = None
  ∧ animate (ext := sampleCollaborators) None noOptions fadeFields
    = (fadeFields, PResolved).
Proof.
  split; [reflexivity |].
  apply (proj1 (proj2 (no_target_no_mutation (ext := sampleCollaborators)))).
  reflexivity.
Defined.

(** ** Configuration *)

(** C9, as stated, fails: [setVariants] without an argument keeps the
    stored mapping, here the one that holds [hidden]. *)
Lemma setVariants_undefined_keeps :
  variants (setVariants None fadeFields) = fadeVariants
  ∧ fadeVariants !! "hidden" = Some hidden
  ∧ Some (variants (setVariants None fadeFields)) ≠ None.
Proof. repeat split; done. Qed.

(** * Further facts *)

(** ** The override stack *)

(** X1: [getHighestPriority] returns an index no occupied slot lies above;
    the slot at that index is occupied unless no slot is, in which case the
    result is 0. *)
Theorem getHighestPriority_highest (s : Fields) :
  (∀ j, occupied s j → j ≤ getHighestPriority s)
  ∧ (occupied s (getHighestPriority s)
     ∨ (getHighestPriority s = 0 ∧ ∀ j, ¬ occupied s j))
  ∧ (getHighestPriority s < length (overrides s) ∨ getHighestPriority s = 0).
Proof.
  destruct (getHighestPriority_spec s) as [Hle Hfound]. cbv zeta in *.
  split; [done |]. split; [done |].
  destruct Hfound as [[d Hd] | [Hz Hnone]]; [left | by right].
  by apply lookup_lt_Some in Hd.
Qed.

Lemma isHighestPriority_true p s :
  isHighestPriority p s = true ↔ ∀ i, p < i → ¬ occupied s i.
Proof.
  split.
  - intros Ht i Hlt Hocc.
    assert (isHighestPriority p s = false) as Hf; [| congruence].
    apply isHighestPriority_false. eauto.
  - intros Hnone. destruct (isHighestPriority p s) eqn:E; [done |].
    apply isHighestPriority_false in E as (i & Hlt & Hocc).
    by destruct (Hnone i Hlt).
Qed.

(** X2: a priority is the highest exactly when it is at least the index
    [getHighestPriority] returns; in particular that index always passes. *)
Theorem isHighestPriority_getHighestPriority (p : nat) (s : Fields) :
  (isHighestPriority p s = true ↔ getHighestPriority s ≤ p)
  ∧ isHighestPriority (getHighestPriority s) s = true.
Proof.
  destruct (getHighestPriority_spec s) as [Hle Hfound]. cbv zeta in *.
  split.
  - rewrite isHighestPriority_true. split.
    + intros Hnone. destruct Hfound as [Hocc | [-> _]]; [| lia].
      destruct (decide (getHighestPriority s ≤ p)) as [|Hgt]; [done |].
      destruct (Hnone (getHighestPriority s)); [lia | done].
    + intros Hh i Hlt Hocc. specialize (Hle i Hocc). lia.
  - apply isHighestPriority_true. intros i Hlt Hocc.
    specialize (Hle i Hocc). lia.
Qed.

Lemma setPriorityAnimation_lookup definition p s :
  overrides (setPriorityAnimation definition p s) !! p = Some (Some definition).
Proof.
  unfold setPriorityAnimation. cbn. case_decide as Hp.
  - by apply list_lookup_insert_eq.
  - rewrite lookup_app_r by lia.
    rewrite lookup_app_r; rewrite length_replicate; [| lia].
    by replace (p - length (overrides s) - (p - length (overrides s))) with 0
      by lia.
Qed.

Lemma setPriorityAnimation_length definition p s :
  length (overrides (setPriorityAnimation definition p s))
  = length (overrides s) `max` S p.
Proof.
  unfold setPriorityAnimation. cbn. case_decide as Hp.
  - rewrite length_insert. lia.
  - rewrite !length_app, length_replicate. cbn. lia.
Qed.

(** X3: [setPriorityAnimation] puts the definition in its slot, growing the
    stack up to that slot when it is too short; no other slot becomes
    occupied or unoccupied, the slots that existed keep their content, and
    no other field changes. *)
Theorem setPriorityAnimation_slot (definition : AnimationDefinition)
    (p : nat) (s : Fields) :
  overrides (setPriorityAnimation definition p s) !! p = Some (Some definition)
  ∧ length (overrides (setPriorityAnimation definition p s))
    = length (overrides s) `max` S p
  ∧ (∀ j, j ≠ p →
       (occupied (setPriorityAnimation definition p s) j ↔ occupied s j))
  ∧ (∀ j, j ≠ p → j < length (overrides s) →
       overrides (setPriorityAnimation definition p s) !! j = overrides s !! j)
  ∧ p ≤ getHighestPriority (setPriorityAnimation definition p s)
  ∧ with_overrides (overrides s) (setPriorityAnimation definition p s) = s.
Proof.
  split; [apply setPriorityAnimation_lookup |].
  split; [apply setPriorityAnimation_length |].
  split; [intros j Hj; by apply setPriorityAnimation_other |].
  split; [| split].
  - intros j Hj Hlen. unfold setPriorityAnimation. cbn. case_decide.
    + by rewrite list_lookup_insert_ne.
    + by rewrite lookup_app_l.
  - destruct (getHighestPriority_spec (setPriorityAnimation definition p s))
      as [Hle _].
    apply Hle. exists definition. apply setPriorityAnimation_lookup.
  - by destruct s.
Qed.

Section override_facts.
Context {ext : Collaborators}.

(** X4: whether it is deferred or not, [start] leaves the override stack as
    [setPriorityAnimation] at [opts.priority || 0] made it, and never
    changes the props, the variants or the default transition. *)
Theorem start_records_definition (definition : AnimationDefinition)
    (opts : AnimationOptions) (c : AnimationControls) :
  overrides (self (start definition opts c).1)
  = overrides (setPriorityAnimation definition (default 0 (priority opts))
                 (self c))
  ∧ overrides (self (start definition opts c).1) !! default 0 (priority opts)
    = Some (Some definition)
  ∧ props (self (start definition opts c).1) = props (self c)
  ∧ variants (self (start definition opts c).1) = variants (self c)
  ∧ defaultTransition (self (start definition opts c).1)
    = defaultTransition (self c).
Proof.
  pose proof (start_config definition opts c) as Hc.
  unfold config in Hc. injection Hc as Hp Hv Ho Hd.
  rewrite Ho. split; [done |].
  split; [apply setPriorityAnimation_lookup |]. done.
Qed.

Lemma clearOverride_config i c :
  props (self (clearOverride i c).1) = props (self c)
  ∧ variants (self (clearOverride i c).1) = variants (self c)
  ∧ defaultTransition (self (clearOverride i c).1) = defaultTransition (self c)
  ∧ overrides (self (clearOverride i c).1)
    = match overrides (self c) !! i with
      | Some (Some d) =>
          if truthy d then <[i := None]> (overrides (self c))
          else overrides (self c)
      | _ => overrides (self c)
      end.
Proof.
  destruct (overrides (self c) !! i) as [[d|]|] eqn:Hd;
    try (unfold clearOverride; by rewrite Hd).
  destruct (truthy d) eqn:Ht; [| unfold clearOverride; by rewrite Hd, Ht].
  rewrite (clearOverride_set i c d Hd Ht). cbv zeta.
  set (cleared := resetIsAnimating (unsetSlot i c)).
  assert (props (self cleared) = props (self c)
          ∧ variants (self cleared) = variants (self c)
          ∧ defaultTransition (self cleared) = defaultTransition (self c)
          ∧ overrides (self cleared) = <[i := None]> (overrides (self c)))
    as Hcl.
  { subst cleared. by rewrite self_resetIsAnimating. }
  case_decide; [done |].
  set (highest := getHighestPriority (self cleared)).
  destruct (match overrides (self cleared) !! highest with
            | Some (Some highestOverride) =>
                if truthy highestOverride then
                  start highestOverride
                    {| delay := None; priority := Some highest |} cleared
                else (cleared, PResolved)
            | _ => (cleared, PResolved)
            end) as [mid restarted] eqn:Emid.
  assert (config (self mid) = config (self cleared)) as Hmid.
  { destruct (overrides (self cleared) !! highest) as [[dh|]|] eqn:Eh;
      try (by injection Emid as <- <-).
    destruct (truthy dh); [| by injection Emid as <- <-].
    pose proof (start_config dh {| delay := None; priority := Some highest |}
                  cleared) as Hs.
    rewrite Emid in Hs. cbn [fst default from_option id priority] in Hs.
    by rewrite (setPriorityAnimation_same _ _ _ Eh) in Hs. }
  pose proof (animateSelf_config (Some (baseVariant (self mid))) noOptions mid)
    as Hre.
  change (VObject (mkTargetAndTransition None None (baseTarget (self mid))))
    with (baseVariant (self mid)).
  destruct (animateSelf (Some (baseVariant (self mid))) noOptions mid)
    as [c' reapplied].
  cbn [fst] in *. rewrite Hmid in Hre. unfold config in Hre.
  injection Hre as -> -> -> ->. naive_solver.
Qed.

(** X5: [clearOverride] changes the override stack at most in its slot,
    which it unsets when the slot holds a definition other than the empty
    label; the length of the stack, the props, the variants and the default
    transition stay as they are. *)
Theorem clearOverride_only_its_slot (i : nat) (c : AnimationControls) :
  (∀ j, j ≠ i →
     overrides (self (clearOverride i c).1) !! j = overrides (self c) !! j)
  ∧ (∀ d, overrides (self c) !! i = Some (Some d) → truthy d = true →
       overrides (self (clearOverride i c).1) !! i = Some None)
  ∧ length (overrides (self (clearOverride i c).1))
    = length (overrides (self c))
  ∧ props (self (clearOverride i c).1) = props (self c)
  ∧ variants (self (clearOverride i c).1) = variants (self c)
  ∧ defaultTransition (self (clearOverride i c).1)
    = defaultTransition (self c).
Proof.
  destruct (clearOverride_config i c) as (Hp & Hv & Hd & Ho).
  rewrite Ho. split; [| split; [| split; [| done]]].
  - intros j Hj. destruct (overrides (self c) !! i) as [[d|]|]; try done.
    destruct (truthy d); [| done]. by rewrite list_lookup_insert_ne.
  - intros d Hi Ht. rewrite Hi, Ht.
    apply list_lookup_insert_eq. by apply lookup_lt_Some in Hi.
  - destruct (overrides (self c) !! i) as [[d|]|]; try done.
    destruct (truthy d); [| done]. by rewrite length_insert.
Qed.

(** X6: clearing the same slot a second time does nothing. *)
Theorem clearOverride_twice (i : nat) (c : AnimationControls) :
  clearOverride i (clearOverride i c).1 = ((clearOverride i c).1, PResolved).
Proof.
  destruct (clearOverride_config i c) as (_ & _ & _ & Ho).
  destruct (overrides (self c) !! i) as [[d|]|] eqn:Hd.
  - destruct (truthy d) eqn:Ht.
    + unfold clearOverride at 1. rewrite Ho.
      rewrite list_lookup_insert_eq by (by apply lookup_lt_Some in Hd). done.
    + assert (clearOverride i c = (c, PResolved)) as ->.
      { unfold clearOverride. by rewrite Hd, Ht. }
      cbn [fst]. unfold clearOverride. by rewrite Hd, Ht.
  - unfold clearOverride at 1. by rewrite Ho, Hd.
  - unfold clearOverride at 1. by rewrite Ho, Hd.
Qed.

(** X7: a gesture that starts at priority [p] and is cleared again leaves
    the occupancy of the override stack as it was, with slot [p] unset. *)
Theorem start_then_clearOverride (definition : AnimationDefinition)
    (opts : AnimationOptions) (c : AnimationControls) (p : nat) :
  priority opts = Some p → truthy definition = true →
  ∀ j, occupied (self (clearOverride p (start definition opts c).1).1) j
       ↔ j ≠ p ∧ occupied (self c) j.
Proof.
  intros Hp Ht j.
  pose proof (start_config definition opts c) as Hc.
  unfold config in Hc. injection Hc as _ _ Ho _.
  rewrite Hp in Ho. cbn [default from_option id] in Ho.
  assert (overrides (self (start definition opts c).1) !! p
          = Some (Some definition)) as Hslot.
  { rewrite Ho. apply setPriorityAnimation_lookup. }
  destruct (clearOverride_config p (start definition opts c).1)
    as (_ & _ & _ & Hclear).
  rewrite Hslot, Ht in Hclear.
  split.
  - intros [d Hd]. rewrite Hclear in Hd.
    destruct (decide (j = p)) as [->|Hne].
    + rewrite list_lookup_insert_eq in Hd by (by apply lookup_lt_Some in Hslot).
      discriminate.
    + rewrite list_lookup_insert_ne in Hd by done. rewrite Ho in Hd.
      split; [done |].
      apply (setPriorityAnimation_other definition p (self c) j Hne).
      by exists d.
  - intros [Hne Hocc].
    apply (setPriorityAnimation_other definition p (self c) j Hne) in Hocc
      as [d Hd].
    exists d. rewrite Hclear, list_lookup_insert_ne by done. by rewrite Ho.
Qed.

End override_facts.

(** ** Seeding and setting values *)

Lemma filter_none {A} (P : A → Prop) `{∀ x, Decision (P x)} (l : list A) :
  (∀ x, x ∈ l → ¬ P x) → filter P l = [].
Proof.
  induction l as [|x l IH]; intros Hl; [done |].
  rewrite filter_cons. rewrite decide_False by (apply Hl; set_solver).
  apply IH. intros y Hy. apply Hl. set_solver.
Qed.

Section seeding_facts.
Context {ext : Collaborators}.

Lemma foldl_seedValue_lookup l s key :
  (key ∈ l →
   values (foldl seedValue s l) !! key = Some (motionValue (styler_get key))
   ∧ baseTarget (foldl seedValue s l) !! key = Some (styler_get key))
  ∧ (key ∉ l →
     values (foldl seedValue s l) !! key = values s !! key
     ∧ baseTarget (foldl seedValue s l) !! key = baseTarget s !! key).
Proof.
  revert s. induction l as [|k l IH]; intros s.
  - split; [set_solver | done].
  - cbn [foldl]. destruct (IH (seedValue s k)) as [Hin Hout].
    destruct (decide (key ∈ l)) as [Hl|Hl].
    + split; [intros _; by apply Hin | set_solver].
    + destruct (Hout Hl) as [-> ->]. cbn.
      destruct (decide (key = k)) as [->|Hne].
      * split; [| set_solver]. intros _. by rewrite !lookup_insert_eq.
      * split; [set_solver |]. intros _. by rewrite !lookup_insert_ne.
Qed.

Lemma foldl_seedValue_rest l s :
  isAnimating (foldl seedValue s l) = isAnimating s
  ∧ config (foldl seedValue s l) = config s.
Proof.
  revert s. induction l as [|k l IH]; intros s; [done |].
  cbn [foldl]. by destruct (IH (seedValue s k)) as [-> ->].
Qed.

(** X8: [checkForNewValues] leaves every tracked key alone; a key of the
    target that is not tracked yet gets a value and a base target read off
    the element; nothing else changes, and a second call changes nothing. *)
Theorem checkForNewValues_seeds (target : Target) (s : Fields) :
  (∀ key, is_Some (values s !! key) →
     values (checkForNewValues target s) !! key = values s !! key
     ∧ baseTarget (checkForNewValues target s) !! key = baseTarget s !! key)
  ∧ (∀ key, values s !! key = None → is_Some (target !! key) →
       values (checkForNewValues target s) !! key
       = Some (motionValue (styler_get key))
       ∧ baseTarget (checkForNewValues target s) !! key
         = Some (styler_get key))
  ∧ (∀ key, values s !! key = None → target !! key = None →
       values (checkForNewValues target s) !! key = None
       ∧ baseTarget (checkForNewValues target s) !! key = baseTarget s !! key)
  ∧ isAnimating (checkForNewValues target s) = isAnimating s
  ∧ config (checkForNewValues target s) = config s
  ∧ checkForNewValues target (checkForNewValues target s)
    = checkForNewValues target s.
Proof.
  assert (∀ key, key ∈ filter (λ key, values s !! key = None) (keys target)
                 ↔ values s !! key = None ∧ is_Some (target !! key)) as Hnew.
  { intros key. by rewrite list_elem_of_filter, elem_of_keys. }
  unfold checkForNewValues at 1 2 3 4 5 6 7 8.
  split; [| split; [| split; [| split; [| split]]]].
  - intros key [value Hv].
    apply (foldl_seedValue_lookup _ s key). rewrite Hnew, Hv. by intros [? _].
  - intros key Hv Ht. apply (foldl_seedValue_lookup _ s key). by apply Hnew.
  - intros key Hv Ht.
    destruct (foldl_seedValue_lookup
                (filter (λ key, values s !! key = None) (keys target)) s key)
      as [_ Hout].
    destruct Hout as [H1 H2]; [| by rewrite H1, H2].
    rewrite Hnew, Ht. by intros [_ [? ?]].
  - apply foldl_seedValue_rest.
  - apply foldl_seedValue_rest.
  - fold (checkForNewValues target s).
    unfold checkForNewValues at 1. rewrite filter_none; [done |].
    intros key Hkey Hnone. apply elem_of_keys in Hkey.
    pose proof (checkForNewValues_tracked target s key Hkey) as [v Hv].
    congruence.
Qed.

End seeding_facts.

Lemma setValue_guard target acc k key :
  key ∈ (setValue target acc k).2 ↔ key ∈ acc.2 ∨ key = k.
Proof.
  destruct acc as [s isActive]. unfold setValue.
  case_decide; cbn; set_solver.
Qed.

Lemma setValue_skip target acc k key :
  key ∈ acc.2 →
  values (setValue target acc k).1 !! key = values acc.1 !! key
  ∧ baseTarget (setValue target acc k).1 !! key = baseTarget acc.1 !! key.
Proof.
  intros Hin. destruct (decide (key = k)) as [->|Hne].
  - destruct acc as [s isActive]. unfold setValue. by rewrite decide_True.
  - by destruct (setValue_other target acc key k Hne) as (? & ? & _).
Qed.

Lemma setValue_rest target acc k :
  isAnimating (setValue target acc k).1 = isAnimating acc.1
  ∧ config (setValue target acc k).1 = config acc.1.
Proof.
  destruct acc as [s isActive]. unfold setValue. by case_decide.
Qed.

Lemma foldl_setValue_guard target ks acc key :
  key ∈ (foldl (setValue target) acc ks).2 ↔ key ∈ acc.2 ∨ key ∈ ks.
Proof.
  revert acc. induction ks as [|k ks IH]; intros acc; [set_solver |].
  cbn [foldl]. rewrite IH, setValue_guard. set_solver.
Qed.

Lemma foldl_setValue_skip target ks acc key :
  key ∈ acc.2 →
  values (foldl (setValue target) acc ks).1 !! key = values acc.1 !! key
  ∧ baseTarget (foldl (setValue target) acc ks).1 !! key
    = baseTarget acc.1 !! key.
Proof.
  revert acc. induction ks as [|k ks IH]; intros acc Hin; [done |].
  cbn [foldl].
  destruct (IH (setValue target acc k)) as [-> ->].
  { apply setValue_guard. by left. }
  by apply setValue_skip.
Qed.

Lemma foldl_setValue_rest target ks acc :
  isAnimating (foldl (setValue target) acc ks).1 = isAnimating acc.1
  ∧ config (foldl (setValue target) acc ks).1 = config acc.1.
Proof.
  revert acc. induction ks as [|k ks IH]; intros acc; [done |].
  cbn [foldl]. destruct (IH (setValue target acc k)) as [-> ->].
  apply setValue_rest.
Qed.

Lemma setValues_lookup target isActive s key :
  (key ∈ (setValues target isActive s).2
   ↔ key ∈ isActive ∨ is_Some (target !! key))
  ∧ (key ∈ isActive ∨ target !! key = None →
     values (setValues target isActive s).1 !! key = values s !! key
     ∧ baseTarget (setValues target isActive s).1 !! key = baseTarget s !! key)
  ∧ (∀ x, key ∉ isActive → target !! key = Some x →
       assigned (setValues target isActive s).1 key x).
Proof.
  unfold setValues. split; [| split].
  - by rewrite foldl_setValue_guard, elem_of_keys.
  - intros [Hin | Hnone].
    + by apply (foldl_setValue_skip target (keys target) (s, isActive)).
    + apply (foldl_setValue_notin target (keys target) (s, isActive)).
      rewrite elem_of_keys, Hnone. by intros [? ?].
  - intros x Hnot Hx. apply foldl_setValue_in; [apply keys_NoDup | | done..].
    apply elem_of_keys. by rewrite Hx.
Qed.

(** X9: [setValues] skips the keys of its guard set and sets every other
    key of the target, as value and as base target, creating the value when
    the key is not tracked; keys outside the target are untouched, the
    guard set grows by the keys of the target, and neither [isAnimating] nor
    the configuration changes. *)
Theorem setValues_sets (target : Target) (isActive : gset string) (s : Fields) :
  (∀ key, key ∈ (setValues target isActive s).2
          ↔ key ∈ isActive ∨ is_Some (target !! key))
  ∧ (∀ key, key ∈ isActive ∨ target !! key = None →
       values (setValues target isActive s).1 !! key = values s !! key
       ∧ baseTarget (setValues target isActive s).1 !! key
         = baseTarget s !! key)
  ∧ (∀ key x, key ∉ isActive → target !! key = Some x →
       assigned (setValues target isActive s).1 key x)
  ∧ isAnimating (setValues target isActive s).1 = isAnimating s
  ∧ config (setValues target isActive s).1 = config s.
Proof.
  split; [intros key; apply setValues_lookup |].
  split; [intros key; apply setValues_lookup |].
  split; [intros key; apply setValues_lookup |].
  apply (foldl_setValue_rest target (keys target) (s, isActive)).
Qed.

(** ** [applyVariantLabels] *)

Lemma applyVariantLabel_lookup s isSetting label key :
  (key ∈ (applyVariantLabel (s, isSetting) label).2
   ↔ key ∈ isSetting
     ∨ is_Some (applied (resolveVariant (variants s !! label) (props s)) !! key))
  ∧ (key ∈ isSetting
     ∨ applied (resolveVariant (variants s !! label) (props s)) !! key = None →
     values (applyVariantLabel (s, isSetting) label).1 !! key = values s !! key
     ∧ baseTarget (applyVariantLabel (s, isSetting) label).1 !! key
       = baseTarget s !! key)
  ∧ (∀ x, key ∉ isSetting →
       applied (resolveVariant (variants s !! label) (props s)) !! key = Some x →
       assigned (applyVariantLabel (s, isSetting) label).1 key x).
Proof.
  unfold applyVariantLabel, applied.
  destruct (resolveVariant (variants s !! label) (props s)) as [t tr te].
  cbn [r_target r_transitionEnd].
  destruct te as [te|], t as [t|]; cbn [default from_option id].
  - destruct (setValues te isSetting s) as [s1 g1] eqn:E1. cbn [fst snd].
    pose proof (setValues_lookup te isSetting s key) as (Hg1 & Hs1 & Ha1).
    pose proof (setValues_lookup t g1 s1 key) as (Hg2 & Hs2 & Ha2).
    rewrite E1 in Hg1, Hs1, Ha1. cbn [fst snd] in *.
    rewrite lookup_union.
    split; [| split].
    + rewrite Hg2, Hg1, union_is_Some.
      split; [intros [[?|?]|?] | intros [?|[?|?]]]; auto.
    + intros Hskip.
      assert (key ∈ isSetting ∨ (te !! key = None ∧ t !! key = None)) as Hc.
      { destruct Hskip as [|Hn]; [by left | right]. by apply union_None. }
      destruct Hs2 as [-> ->]; [| apply Hs1].
      * destruct Hc as [|[_ ?]]; [left; apply Hg1; by left | by right].
      * destruct Hc as [|[? _]]; [by left | by right].
    + intros x Hnot Hx. apply union_Some in Hx as [Ete | [Ete Ht]].
      * specialize (Ha1 x Hnot Ete).
        destruct Hs2 as [Hv Hb]; [left; apply Hg1; right; by eexists |].
        unfold assigned. by rewrite Hv, Hb.
      * apply Ha2; [| done]. rewrite Hg1, Ete. by intros [|[? ?]].
  - pose proof (setValues_lookup te isSetting s key) as (Hg1 & Hs1 & Ha1).
    rewrite lookup_union, lookup_empty, (right_id_L None _).
    done.
  - pose proof (setValues_lookup t isSetting s key) as (Hg1 & Hs1 & Ha1).
    rewrite lookup_union, lookup_empty, (left_id_L None _).
    done.
  - cbn. rewrite lookup_union, lookup_empty. cbn.
    split; [| split]; [rewrite is_Some_alt; naive_solver | done | done].
Qed.

Lemma applyVariantLabel_rest acc label :
  isAnimating (applyVariantLabel acc label).1 = isAnimating acc.1
  ∧ config (applyVariantLabel acc label).1 = config acc.1.
Proof.
  destruct acc as [s isSetting]. unfold applyVariantLabel.
  destruct (resolveVariant (variants s !! label) (props s)) as [t tr te].
  cbn [r_target r_transitionEnd].
  destruct te as [te|], t as [t|]; cbn [fst snd]; [| | | done].
  - pose proof (foldl_setValue_rest te (keys te) (s, isSetting)) as [H1 H2].
    fold (setValues te isSetting s) in H1, H2.
    destruct (setValues te isSetting s) as [s1 g1]. cbn [fst snd] in *.
    pose proof (foldl_setValue_rest t (keys t) (s1, g1)) as [H3 H4].
    fold (setValues t g1 s1) in H3, H4. cbn [fst] in H3, H4.
    by rewrite H3, H4, H1, H2.
  - apply (foldl_setValue_rest te (keys te) (s, isSetting)).
  - apply (foldl_setValue_rest t (keys t) (s, isSetting)).
Qed.

Lemma foldl_applyVariantLabel_rest labels acc :
  isAnimating (foldl applyVariantLabel acc labels).1 = isAnimating acc.1
  ∧ config (foldl applyVariantLabel acc labels).1 = config acc.1.
Proof.
  revert acc. induction labels as [|l labels IH]; intros acc; [done |].
  cbn [foldl]. destruct (IH (applyVariantLabel acc l)) as [-> ->].
  apply applyVariantLabel_rest.
Qed.

Lemma foldl_applyVariantLabel_skip labels acc key :
  key ∈ acc.2 →
  values (foldl applyVariantLabel acc labels).1 !! key = values acc.1 !! key
  ∧ baseTarget (foldl applyVariantLabel acc labels).1 !! key
    = baseTarget acc.1 !! key.
Proof.
  revert acc. induction labels as [|l labels IH]; intros acc Hin; [done |].
  cbn [foldl]. destruct acc as [s g]. cbn [fst snd] in *.
  destruct (applyVariantLabel_lookup s g l key) as (Hg & Hs & _).
  destruct (IH (applyVariantLabel (s, g) l)) as [-> ->].
  { apply Hg. by left. }
  apply Hs. by left.
Qed.

(** X10: [applyVariantLabels] sets, for the last label of the list, every
    entry of its [transitionEnd] and every entry of its target that
    [transitionEnd] does not cover, whatever the labels before it say; the
    resolver of that label receives the props of the controller.  It never
    touches [isAnimating], the override stack or the configuration. *)
Theorem applyVariantLabels_last_wins (labels : list string) (last : string)
    (s : Fields) :
  (∀ key x,
     applied (resolveVariant (variants s !! last) (props s)) !! key = Some x →
     assigned (applyVariantLabels (labels ++ [last]) s) key x)
  ∧ isAnimating (applyVariantLabels (labels ++ [last]) s) = isAnimating s
  ∧ config (applyVariantLabels (labels ++ [last]) s) = config s.
Proof.
  unfold applyVariantLabels. rewrite reverse_snoc. cbn [foldl].
  split.
  - intros key x Hx.
    destruct (applyVariantLabel_lookup s ∅ last key) as (Hg & _ & Ha).
    specialize (Ha x (not_elem_of_empty key) Hx).
    destruct (foldl_applyVariantLabel_skip (reverse labels)
                (applyVariantLabel (s, ∅) last) key) as [Hv Hb].
    { apply Hg. right. rewrite Hx. by eexists. }
    unfold assigned. by rewrite Hv, Hb.
  - destruct (foldl_applyVariantLabel_rest (reverse labels)
                (applyVariantLabel (s, ∅) last)) as [-> ->].
    apply (applyVariantLabel_rest (s, ∅) last).
Qed.

(** X11: a key that no label of the list covers keeps its value and its
    base target; in particular labels without a variant apply nothing. *)
Theorem applyVariantLabels_untouched (labels : list string) (s : Fields)
    (key : string) :
  (∀ label, label ∈ labels →
     applied (resolveVariant (variants s !! label) (props s)) !! key = None) →
  values (applyVariantLabels labels s) !! key = values s !! key
  ∧ baseTarget (applyVariantLabels labels s) !! key = baseTarget s !! key.
Proof.
  unfold applyVariantLabels. intros Hnone.
  assert (∀ label, label ∈ reverse labels →
            applied (resolveVariant (variants s !! label) (props s)) !! key
            = None) as Hrev.
  { intros label Hin. apply Hnone. by apply elem_of_reverse. }
  clear Hnone. generalize (∅ : gset string) as g.
  revert s Hrev. induction (reverse labels) as [|l ls IH]; intros s Hrev g;
    [done |].
  cbn [foldl].
  destruct (applyVariantLabel_lookup s g l key) as (_ & Hs & _).
  destruct (applyVariantLabel_rest (s, g) l) as [_ Hc].
  destruct (applyVariantLabel (s, g) l) as [s1 g1]. cbn [fst snd] in *.
  destruct Hs as [<- <-]; [right; apply Hrev; set_solver |].
  apply IH. intros label Hin. unfold config in Hc. injection Hc as -> -> _ _.
  apply Hrev. set_solver.
Qed.

(** ** More on one pass of [animate] *)

Section pass_facts.
Context {ext : Collaborators}.

Lemma animateKey_guarded target transition delay priority acc k key :
  key ∈ isAnimating acc.1 →
  view key (animateKey target transition delay priority acc k).1
  = view key acc.1.
Proof.
  intros Hin. destruct (decide (key = k)) as [->|Hne].
  - destruct acc as [s a]. unfold animateKey. by rewrite decide_True.
  - by apply animateKey_other.
Qed.

Lemma foldl_animateKey_guarded target transition delay priority ks acc key :
  key ∈ isAnimating acc.1 →
  view key (foldl (animateKey target transition delay priority) acc ks).1
  = view key acc.1.
Proof.
  revert acc. induction ks as [|k ks IH]; intros acc Hin; [done |].
  cbn [foldl].
  pose proof (animateKey_guarded target transition delay priority acc k key Hin)
    as Hk.
  rewrite IH; [done |].
  unfold view in Hk. injection Hk as _ _ Hg.
  apply (bool_decide_agree _ _ Hg). done.
Qed.

Lemma checkForNewValues_view target s key :
  is_Some (values s !! key) →
  view key (checkForNewValues target s) = view key s.
Proof.
  intros Hk. unfold view.
  rewrite checkForNewValues_isAnimating.
  destruct (foldl_seedValue_lookup
              (filter (λ key, values s !! key = None) (keys target)) s key)
    as [_ Hout].
  unfold checkForNewValues. destruct Hout as [-> ->]; [| done].
  rewrite list_elem_of_filter. destruct Hk as [v ->]. by intros [? _].
Qed.

Lemma animate_guarded (variant : option Variant)
    (opts : AnimationOptions) (s : Fields) (key : string) :
  key ∈ isAnimating s → is_Some (values s !! key) →
  values (animate variant opts s).1 !! key = values s !! key
  ∧ baseTarget (animate variant opts s).1 !! key = baseTarget s !! key
  ∧ key ∈ isAnimating (animate variant opts s).1.
Proof.
  intros Hin Hk. destruct variant as [v|]; [| done].
  assert (view key (animate (Some v) opts s).1 = view key s) as Hview.
  { rewrite animate_present. cbv zeta.
    match goal with
    | |- context [foldl (animateKey ?t ?tr ?d ?p) ?acc ?ks] =>
        pose proof (foldl_animateKey_guarded t tr d p ks acc key) as Hg;
        destruct (foldl (animateKey t tr d p) acc ks) as [s' a]
    end.
    cbn [fst] in *. rewrite Hg by (by rewrite checkForNewValues_isAnimating).
    by apply checkForNewValues_view. }
  unfold view in Hview. injection Hview as -> -> Hg.
  split; [done |]. split; [done |]. by apply (bool_decide_agree _ _ Hg).
Qed.

Lemma animate_key_result (v : Variant) (opts : AnimationOptions)
    (s : Fields) (key : string) (b : Val) (value : MotionValue) :
  resolvedTarget v s !! key = Some b → b ≠ VUndefined →
  key ∉ isAnimating s →
  values (checkForNewValues (declaredTarget v) s) !! key = Some value →
  values (animate (Some v) opts s).1 !! key
  = Some (if isAnimatable b
          then mv_control
                 (mkPlayback key b (default 0%Q (delay opts)) (passTransition v s))
                 value
          else mv_set b value)
  ∧ key ∈ isAnimating (animate (Some v) opts s).1.
Proof.
  intros Hx Hdef Hnot Hval.
  pose proof (animate_view v opts s key) as Hview.
  rewrite Hx in Hview. specialize (Hview (mk_is_Some _ _ eq_refl)).
  cbv zeta in Hview. unfold view in Hview at 1. injection Hview as Hv _ Hg.
  rewrite Hv.
  assert (key ∈ isAnimating (animate (Some v) opts s).1
          ↔ key ∈ isAnimating
                    (animateKey (resolvedTarget v s)
                       match r_transition (resolveVariant (Some v) None) with
                       | Some t => Some t
                       | None =>
                           defaultTransition
                             (checkForNewValues (declaredTarget v) s)
                       end (default 0%Q (delay opts))
                       (default 0 (priority opts))
                       (checkForNewValues (declaredTarget v) s, []) key).1)
    as ->.
  { exact (bool_decide_agree _ _ Hg). }
  clear Hv Hg. unfold animateKey.
  destruct (decide (key ∈ isAnimating (checkForNewValues (declaredTarget v) s)))
    as [Hin | _]; [by rewrite checkForNewValues_isAnimating in Hin |].
  rewrite Hval. unfold prop_get. rewrite Hx. cbn [default from_option id].
  assert (defaultTransition (checkForNewValues (declaredTarget v) s)
          = defaultTransition s) as ->.
  { pose proof (checkForNewValues_config (declaredTarget v) s) as Hc.
    unfold config in Hc. by injection Hc. }
  fold (passTransition v s).
  destruct b as [|n|str]; [done | |]; cbn [is_undefined isAnimatable].
  - split; [cbn; by rewrite lookup_insert_eq |].
    cbn [fst isAnimating with_isAnimating]. set_solver.
  - destruct (complex_test str);
      (split; [cbn; by rewrite lookup_insert_eq |]);
      cbn [fst isAnimating with_isAnimating]; set_solver.
Qed.

Lemma animateKey_grows target transition delay priority acc k :
  (∀ key, is_Some (values acc.1 !! key) →
          is_Some (values (animateKey target transition delay priority acc k).1
                   !! key))
  ∧ (∀ key, key ∈ isAnimating acc.1 →
            key ∈ isAnimating
                    (animateKey target transition delay priority acc k).1)
  ∧ (∀ key, key ∈ isAnimating
                    (animateKey target transition delay priority acc k).1 →
            key ∈ isAnimating acc.1 ∨ key = k).
Proof.
  destruct acc as [s a]. unfold animateKey.
  case_decide; [by auto |]. destruct (values s !! k) eqn:E; [| by auto].
  destruct (is_undefined _); [by auto |].
  destruct (isAnimatable _); cbn.
  all: split; [| split; set_solver].
  all: intros key Hk; destruct (decide (key = k)) as [->|Hne];
    [rewrite lookup_insert_eq; by eexists | by rewrite lookup_insert_ne].
Qed.

Lemma foldl_animateKey_grows target transition delay priority ks acc :
  (∀ key, is_Some (values acc.1 !! key) →
          is_Some (values (foldl (animateKey target transition delay priority)
                             acc ks).1 !! key))
  ∧ (∀ key, key ∈ isAnimating acc.1 →
            key ∈ isAnimating
                    (foldl (animateKey target transition delay priority)
                       acc ks).1)
  ∧ (∀ key, key ∈ isAnimating
                    (foldl (animateKey target transition delay priority)
                       acc ks).1 →
            key ∈ isAnimating acc.1 ∨ key ∈ ks).
Proof.
  revert acc. induction ks as [|k ks IH]; intros acc.
  - split; [done |]. split; [done |]. by left.
  - cbn [foldl].
    destruct (IH (animateKey target transition delay priority acc k))
      as (Hv & Hup & Hdown).
    destruct (animateKey_grows target transition delay priority acc k)
      as (Hv1 & Hup1 & Hdown1).
    split; [| split].
    + intros key Hk. by apply Hv, Hv1.
    + intros key Hk. by apply Hup, Hup1.
    + intros key Hk. destruct (Hdown key Hk) as [Hk1 | Hk1]; [| set_solver].
      destruct (Hdown1 key Hk1); set_solver.
Qed.

Lemma animate_growth (variant : option Variant)
    (opts : AnimationOptions) (s : Fields) :
  (∀ key, is_Some (values s !! key) →
          is_Some (values (animate variant opts s).1 !! key))
  ∧ (∀ key, key ∈ isAnimating s → key ∈ isAnimating (animate variant opts s).1)
  ∧ (∀ v key, variant = Some v → is_Some (declaredTarget v !! key) →
              is_Some (values (animate variant opts s).1 !! key))
  ∧ (∀ v key, variant = Some v →
              key ∈ isAnimating (animate variant opts s).1 →
              key ∈ isAnimating s ∨ is_Some (resolvedTarget v s !! key))
  ∧ config (animate variant opts s).1 = config s.
Proof.
  split; [| split; [| split; [| split; [| apply animate_config]]]].
  all: destruct variant as [v|]; [| done].
  all: rewrite animate_present; cbv zeta.
  all: match goal with
       | |- context [foldl (animateKey ?t ?tr ?d ?p) ?acc ?ks] =>
           pose proof (foldl_animateKey_grows t tr d p ks acc)
             as (Hv & Hup & Hdown);
           destruct (foldl (animateKey t tr d p) acc ks) as [s' a]
       end; cbn [fst] in *.
  - intros key Hk. by apply Hv, checkForNewValues_keeps.
  - intros key Hk. apply Hup. by rewrite checkForNewValues_isAnimating.
  - intros v' key [= <-] Hk. by apply Hv, checkForNewValues_tracked.
  - intros v' key [= <-] Hk. destruct (Hdown key Hk) as [Hin | Hin].
    + left. by rewrite checkForNewValues_isAnimating in Hin.
    + right. by apply elem_of_keys.
Qed.

(** X12: a pass skips a tracked key that is already marked as animating:
    its value and its base target are as before the pass. *)
Theorem animate_skips_animating (variant : option Variant)
    (opts : AnimationOptions) (s : Fields) (key : string) :
  key ∈ isAnimating s → is_Some (values s !! key) →
  values (animate variant opts s).1 !! key = values s !! key
  ∧ baseTarget (animate variant opts s).1 !! key = baseTarget s !! key
  ∧ key ∈ isAnimating (animate variant opts s).1.
Proof. exact (animate_guarded variant opts s key). Qed.

Lemma foldl_animateKey_baseTarget target transition delay priority ks acc :
  priority ≠ 0 →
  baseTarget (foldl (animateKey target transition delay priority) acc ks).1
  = baseTarget acc.1.
Proof.
  intros Hp. revert acc. induction ks as [|k ks IH]; intros acc; [done |].
  cbn [foldl]. rewrite IH. destruct acc as [s a]. unfold animateKey.
  case_decide; [done |]. destruct (values s !! k); [| done].
  destruct (is_undefined _); [done |].
  apply Nat.eqb_neq in Hp. rewrite Hp.
  by destruct (isAnimatable _).
Qed.

(** X13: a pass at a priority other than 0 records no base target: the
    base target is the one [checkForNewValues] left, so every key that was
    tracked before the pass keeps its base target. *)
Theorem animate_override_keeps_baseTarget (v : Variant)
    (opts : AnimationOptions) (s : Fields) (p : nat) :
  priority opts = Some p → p ≠ 0 →
  baseTarget (animate (Some v) opts s).1
  = baseTarget (checkForNewValues (declaredTarget v) s)
  ∧ ∀ key, is_Some (values s !! key) →
      baseTarget (animate (Some v) opts s).1 !! key = baseTarget s !! key.
Proof.
  intros Hp Hne.
  assert (baseTarget (animate (Some v) opts s).1
          = baseTarget (checkForNewValues (declaredTarget v) s)) as Hb.
  { rewrite animate_present. cbv zeta. rewrite Hp. cbn [default from_option id].
    match goal with
    | |- context [foldl (animateKey ?t ?tr ?d ?p) ?acc ?ks] =>
        pose proof (foldl_animateKey_baseTarget t tr d p ks acc Hne) as Hg;
        destruct (foldl (animateKey t tr d p) acc ks) as [s' a]
    end.
    done. }
  split; [done |]. intros key Hk. rewrite Hb.
  pose proof (checkForNewValues_view (declaredTarget v) s key Hk) as Hview.
  unfold view in Hview. by injection Hview as _ -> _.
Qed.

(** X14: how a pass drives a key of its resolved target that is tracked
    after seeding, defined and not yet animating: an animatable value is
    handed to [control] with the delay of the options (0 when absent) and
    the transition of the variant, or the default transition when the
    variant has none; any other value is set at once.  The key is then
    marked as animating. *)
Theorem animate_drives_key (v : Variant) (opts : AnimationOptions)
    (s : Fields) (key : string) (b : Val) (value : MotionValue) :
  resolvedTarget v s !! key = Some b → b ≠ VUndefined →
  key ∉ isAnimating s →
  values (checkForNewValues (declaredTarget v) s) !! key = Some value →
  values (animate (Some v) opts s).1 !! key
  = Some (if isAnimatable b
          then mv_control
                 (mkPlayback key b (default 0%Q (delay opts)) (passTransition v s))
                 value
          else mv_set b value)
  ∧ key ∈ isAnimating (animate (Some v) opts s).1.
Proof. exact (animate_key_result v opts s key b value). Qed.

(** X15: a pass never drops a tracked value or an [isAnimating] entry;
    afterwards every key of the declared target is tracked, the keys it
    added to [isAnimating] are keys of its resolved target, and the props,
    the variants, the override stack and the default transition are as
    before. *)
Theorem animate_only_grows (variant : option Variant)
    (opts : AnimationOptions) (s : Fields) :
  (∀ key, is_Some (values s !! key) →
          is_Some (values (animate variant opts s).1 !! key))
  ∧ (∀ key, key ∈ isAnimating s → key ∈ isAnimating (animate variant opts s).1)
  ∧ (∀ v key, variant = Some v → is_Some (declaredTarget v !! key) →
              is_Some (values (animate variant opts s).1 !! key))
  ∧ (∀ v key, variant = Some v →
              key ∈ isAnimating (animate variant opts s).1 →
              key ∈ isAnimating s ∨ is_Some (resolvedTarget v s !! key))
  ∧ config (animate variant opts s).1 = config s.
Proof. exact (animate_growth variant opts s). Qed.

Lemma foldl_animateKey_exact target transition delay priority ks : ∀ acc,
  NoDup ks →
  ∃ extra,
    (foldl (animateKey target transition delay priority) acc ks).2
    = acc.2 ++ extra
    ∧ NoDup extra
    ∧ ∀ p, p ∈ extra →
        ∃ key, p = PControl key ∧ key ∈ ks
               ∧ (key ∉ isAnimating acc.1)
               ∧ is_Some (values acc.1 !! key)
               ∧ isAnimatable (prop_get target key) = true.
Proof.
  induction ks as [|k ks IH]; intros acc Hnd.
  - exists []. rewrite app_nil_r. split; [done |]. split; [constructor |].
    intros p Hp. set_solver.
  - apply NoDup_cons in Hnd as [Hk Hnd]. cbn [foldl].
    destruct (IH (animateKey target transition delay priority acc k) Hnd)
      as (extra & Heq & Hnd' & Hex).
    destruct (animateKey_grows target transition delay priority acc k)
      as (Hv1 & Hup1 & Hdown1).
    assert (∀ p, p ∈ extra →
              ∃ key, p = PControl key ∧ key ∈ ks
                     ∧ (key ∉ isAnimating acc.1)
                     ∧ is_Some (values acc.1 !! key)
                     ∧ isAnimatable (prop_get target key) = true) as Hex'.
    { intros p Hp. destruct (Hex p Hp) as (key & -> & Hin & Hnot & Hval & Han).
      exists key. split; [done |]. split; [done |].
      assert (key ≠ k) as Hne by set_solver.
      pose proof (animateKey_other target transition delay priority acc key k Hne)
        as Hview.
      unfold view in Hview. injection Hview as Hvv _ _.
      split; [| split; [by rewrite <- Hvv | done]].
      intros Hin'. by apply Hnot, Hup1. }
    rewrite Heq. clear Heq Hex.
    destruct acc as [s a]. unfold animateKey at 1. cbn [fst snd] in *.
    assert (∀ p, p ∈ extra → p ≠ PControl k) as Hfresh.
    { intros p Hp ->. destruct (Hex' _ Hp) as (key & [= <-] & Hin & _).
      done. }
    case_decide as Hdec; [exists extra; split; [done |]; split; [done |];
                          intros p Hp; destruct (Hex' p Hp) as (key & ?);
                          exists key; set_solver |].
    destruct (values s !! k) as [value|] eqn:Ev;
      [| exists extra; split; [done |]; split; [done |];
         intros p Hp; destruct (Hex' p Hp) as (key & ?);
         exists key; set_solver].
    destruct (is_undefined (prop_get target k)) eqn:Eu;
      [exists extra; split; [done |]; split; [done |];
       intros p Hp; destruct (Hex' p Hp) as (key & ?);
       exists key; set_solver |].
    destruct (isAnimatable (prop_get target k)) eqn:Ea; cbn [fst snd];
      [| exists extra; split; [done |]; split; [done |];
         intros p Hp; destruct (Hex' p Hp) as (key & ?);
         exists key; set_solver].
    exists (PControl k :: extra). split; [by rewrite <- app_assoc |].
    split.
    + apply NoDup_cons. split; [| done]. intros Hin. by apply (Hfresh _ Hin).
    + intros p Hp. apply elem_of_cons in Hp as [-> | Hp].
      * exists k. split; [done |]. split; [set_solver |].
        split; [done |]. split; [by eexists | done].
      * destruct (Hex' p Hp) as (key & ?). exists key. set_solver.
Qed.

(** X16: the promise of a pass awaits nothing but the animations the pass
    started: each awaited promise is the [control] promise of a distinct
    key of the resolved target whose value is animatable and that was not
    marked as animating before the pass. *)
Theorem animate_awaits_only_its_animations (v : Variant)
    (opts : AnimationOptions) (s : Fields) :
  ∃ animations,
    (animate (Some v) opts s).2
    = PThen (PAll animations) (DTransitionEnd (resolvedTransitionEnd v s))
    ∧ NoDup animations
    ∧ ∀ p, p ∈ animations →
        ∃ key b, p = PControl key
                 ∧ resolvedTarget v s !! key = Some b
                 ∧ isAnimatable b = true
                 ∧ (key ∉ isAnimating s)
                 ∧ key ∈ isAnimating (animate (Some v) opts s).1.
Proof.
  rewrite animate_present. cbv zeta.
  match goal with
  | |- context [foldl (animateKey ?t ?tr ?d ?p) (?s1, ?a1) ?ks] =>
      pose proof (foldl_animateKey_exact t tr d p ks (s1, a1) (keys_NoDup _))
        as (extra & Heq & Hnd & Hex);
      pose proof (λ key, foldl_animateKey_awaits t tr d p ks s1 a1 key
                           (keys_NoDup _)) as Hawait;
      pose proof (foldl_animateKey_guarded t tr d p ks) as Hguard;
      destruct (foldl (animateKey t tr d p) (s1, a1) ks) as [s2 animations]
        eqn:Efold
  end.
  cbn [fst snd] in *. subst animations. exists extra.
  split; [done |]. split; [done |].
  intros p Hp. destruct (Hex p Hp) as (key & -> & Hin & Hnot & Hval & Han).
  apply elem_of_keys in Hin as [b Hb].
  exists key, b. split; [done |]. split; [done |].
  unfold prop_get in Han. rewrite Hb in Han. cbn in Han.
  split; [done |].
  split; [by rewrite checkForNewValues_isAnimating in Hnot |].
  (* the key was processed, hence marked *)
  destruct (decide (key ∈ isAnimating s2)) as [|Hout]; [done |].
  exfalso.
  match type of Efold with
  | foldl (animateKey ?t ?tr ?d ?p) ?acc ?ks = _ =>
      pose proof (foldl_animateKey_in t tr d p ks
                    (checkForNewValues (declaredTarget v) s) [] key
                    (keys_NoDup _)) as Hview
  end.
  rewrite Efold in Hview. cbn [fst] in Hview.
  specialize (Hview ltac:(apply elem_of_keys; by eexists)).
  unfold view in Hview. injection Hview as _ _ Hg.
  apply Hout. apply (bool_decide_agree _ _ Hg).
  unfold animateKey. rewrite decide_False by done.
  destruct Hval as [value ->]. unfold prop_get. rewrite Hb.
  cbn [default from_option id].
  destruct b as [|n|str]; [done | |]; cbn [is_undefined].
  - cbn. set_solver.
  - cbn [isAnimatable] in *. rewrite Han. cbn. set_solver.
Qed.

(** X17: an accepted [start] of an explicit target begins a fresh pass:
    afterwards only keys of the resolved target are marked as animating,
    whatever was marked before, and the children are the former ones with
    their marks cleared. *)
Theorem start_begins_fresh_pass (v : Variant) (opts : AnimationOptions)
    (c : AnimationControls) :
  accepted opts c →
  (∀ key, key ∈ isAnimating (self (start (DVariant v) opts c).1) →
          is_Some (resolvedTarget v (self c) !! key))
  ∧ children (start (DVariant v) opts c).1
    = (map resetIsAnimating <$> children c).
Proof.
  intros Hacc. rewrite (start_accepted _ _ _ Hacc). cbv zeta.
  split.
  - intros key Hkey. rewrite animateSelf_self, self_resetIsAnimating in Hkey.
    cbn [self] in Hkey.
    destruct (animate_growth (Some v) opts
                (with_isAnimating ∅
                   (setPriorityAnimation (DVariant v)
                      (default 0 (priority opts)) (self c))))
      as (_ & _ & _ & Hdown & _).
    destruct (Hdown v key eq_refl Hkey) as [Hin | Hin]; [set_solver |].
    erewrite resolvedTarget_values; [exact Hin | done].
  - unfold animateSelf. destruct (animate _ _ _) as [s' p].
    cbn [fst children]. by destruct c as [s [l|]].
Qed.

End pass_facts.

(** ** Sequencing of a controller and its children *)

Section sequencing_facts.
Context {ext : Collaborators}.

Lemma steps_app x evs1 y evs2 z :
  steps x evs1 y → steps y evs2 z → steps x (evs1 ++ evs2) z.
Proof.
  induction 1 as [|x ev y' evs1 y Hstep _ IH]; intros Hrest; [done |].
  cbn. eapply steps_cons; [done | by apply IH].
Qed.

(** A run of [p.then(k)]: a run of [p], then, once [p] is settled, the
    callback and a run of what it returns. *)
Lemma steps_then_inv evs : ∀ c p K z,
  steps (c, PThen p K) evs z →
  (∃ c' p', z = (c', PThen p' K) ∧ steps (c, p) evs (c', p'))
  ∨ (∃ evs1 evs2 c1 p1,
       evs = evs1 ++ EvThen K :: evs2
       ∧ steps (c, p) evs1 (c1, p1)
       ∧ settled p1 = true
       ∧ steps (runDeferred K c1) evs2 z).
Proof.
  induction evs as [|ev evs IH]; intros c p K z Hsteps.
  - inversion Hsteps; subst. left. exists c, p. split; [done | constructor].
  - inversion Hsteps as [|x ev0 y evs0 z0 Hstep Hrest]; subst.
    inversion Hstep as [| c0 p0 k0 c' p' Hset Hrun | c0 p0 k0 ev0 c' p' Hin | |];
      subst.
    + right. exists [], evs, c, p. split; [done |].
      split; [constructor |]. split; [done |]. by rewrite Hrun.
    + destruct (IH c' p' K z Hrest)
        as [(c2 & p2 & -> & Hrun) | (evs1 & evs2 & c1 & p1 & -> & Hrun & Hset & Hk)].
      * left. exists c2, p2. split; [done |]. by eapply steps_cons.
      * right. exists (ev :: evs1), evs2, c1, p1. split; [done |].
        split; [by eapply steps_cons |]. done.
Qed.

Lemma animate_run v opts s ch evs c' p' :
  steps (Controls (animate (Some v) opts s).1 ch, (animate (Some v) opts s).2)
    evs (c', p') →
  (c' = Controls (animate (Some v) opts s).1 ch
   ∧ ∃ pending,
       p' = PThen (PAll pending) (DTransitionEnd (resolvedTransitionEnd v s)))
  ∨ (∃ settles,
       evs = settles ++ [EvThen (DTransitionEnd (resolvedTransitionEnd v s))]
       ∧ (∀ key b,
            resolvedTarget v s !! key = Some b → isAnimatable b = true →
            key ∉ isAnimating s →
            is_Some (declaredTarget v !! key) ∨ is_Some (values s !! key) →
            EvSettle key ∈ settles)
       ∧ (c', p')
         = runDeferred (DTransitionEnd (resolvedTransitionEnd v s))
             (Controls (animate (Some v) opts s).1 ch)).
Proof.
  set (callback := DTransitionEnd (resolvedTransitionEnd v s)).
  rewrite animate_present. cbv zeta.
  match goal with
  | |- context [foldl (animateKey ?t ?tr ?d ?p) (?s1, ?a1) ?ks] =>
      pose proof (foldl_animateKey_promises t tr d p ks (s1, a1)) as Hctl;
      pose proof (λ key, foldl_animateKey_awaits t tr d p ks s1 a1 key
                           (keys_NoDup _)) as Hawait;
      destruct (foldl (animateKey t tr d p) (s1, a1) ks) as [s2 animations]
  end.
  cbn [fst snd] in *. intros Hsteps.
  apply steps_pass in Hsteps.
  - destruct Hsteps as [(Hevs & ps' & Hz & _) | (settles & -> & Hset & Hkeys & Hz)].
    + left. injection Hz as -> ->. split; [done | by eexists].
    + right. exists settles. split; [done |]. split; [| done].
      intros key b Hb Han Hnot Htracked. apply Hkeys, Hawait.
      * apply elem_of_keys. by rewrite Hb.
      * by rewrite checkForNewValues_isAnimating.
      * destruct Htracked; [by apply checkForNewValues_tracked
                           | by apply checkForNewValues_keeps].
      * unfold prop_get. by rewrite Hb.
  - eapply Forall_impl; [apply Hctl; constructor |].
    intros p [key ->]. right. by exists key.
  - intros c0. unfold callback. by destruct (resolvedTransitionEnd v s).
Qed.

Lemma runDeferred_transitionEnd te c :
  children (runDeferred (DTransitionEnd te) c).1 = children c
  ∧ (runDeferred (DTransitionEnd te) c).2 = PResolved.
Proof. by destruct te. Qed.

(** X18: with [beforeChildren], along every run of the event loop from the
    return of [animateVariant], no child changes before the callback that
    animates the children runs, and that callback runs only after every
    animation of the controller itself has settled and its [transitionEnd]
    callback has run. *)
Theorem children_wait_for_own (variantLabel : string)
    (opts : AnimationOptions) (s : Fields) (l : list AnimationControls)
    (v : Variant) (a : bool) (dC sC sD : Q) (evs : list event)
    (c' : AnimationControls) (q : Promise) :
  variants s !! variantLabel = Some v →
  orchestration (r_transition (resolveVariant (Some v) None))
  = (true, a, dC, sC, sD) →
  steps (animateVariant variantLabel opts (Controls s (Some l))) evs (c', q) →
  (children c' = Some l
   ∧ ∃ p',
       q = PThen p'
             (DAnimateChildren variantLabel dC sC sD
                (default 0 (priority opts))))
  ∨ (∃ evs1 evs2,
       evs = evs1
             ++ EvThen (DAnimateChildren variantLabel dC sC sD
                          (default 0 (priority opts))) :: evs2
       ∧ EvThen (DTransitionEnd (resolvedTransitionEnd v s)) ∈ evs1
       ∧ ∀ key b,
           resolvedTarget v s !! key = Some b → isAnimatable b = true →
           key ∉ isAnimating s →
           is_Some (declaredTarget v !! key) ∨ is_Some (values s !! key) →
           EvSettle key ∈ evs1).
Proof.
  intros Hv Horch Hsteps.
  rewrite animateVariant_eq in Hsteps. cbv zeta in Hsteps.
  rewrite Hv, Horch in Hsteps. cbn [orb] in Hsteps.
  pose proof (animate_run v opts s (Some l)) as Hrun.
  destruct (animate (Some v) opts s) as [s1 p1]. cbn [fst snd] in Hrun.
  apply steps_then_inv in Hsteps
    as [(c2 & p2 & [= -> ->] & Hown)
       | (evs1 & evs2 & c1 & p1' & -> & Hown & Hset & _)].
  - left. split; [| by eexists].
    destruct (Hrun _ _ _ Hown) as [[-> _] | (_ & _ & _ & Hz)]; [done |].
    destruct (runDeferred_transitionEnd (resolvedTransitionEnd v s)
                (Controls s1 (Some l))) as [Hch _].
    rewrite <- Hz in Hch. done.
  - right. exists evs1, evs2. split; [done |].
    destruct (Hrun _ _ _ Hown) as [[_ [pending ->]] | (settles & -> & Hkeys & _)];
      [done |].
    split; [set_solver |].
    intros key b Hb Han Hnot Htracked.
    specialize (Hkeys key b Hb Han Hnot Htracked). set_solver.
Qed.

Lemma forEachChild_promises f i l : childPromises (forEachChild f i l).2.
Proof.
  revert i. induction l as [|c l IH]; intros i; [constructor |].
  cbn. destruct (f i c) as [c1 p1]. specialize (IH (S i)).
  destruct (forEachChild f (S i) l) as [l1 ps1]. cbn in *.
  constructor; [by eexists _, _ | done].
Qed.

Lemma step_children c ps ev z :
  childPromises ps →
  step (c, PAll ps) ev z →
  self z.1 = self c ∧ ∃ ps', z.2 = PAll ps' ∧ childPromises ps'.
Proof.
  intros Hps Hstep.
  inversion Hstep as [| | | c1 ps1 p ps2 ev1 c1' p1' Hp |]; subst.
  apply Forall_app in Hps as [H1 H2]. apply Forall_cons in H2 as [[i [q ->]] H2].
  inversion Hp; subst. cbn. split; [done |].
  eexists. split; [done |].
  apply Forall_app. split; [done |]. constructor; [by eexists _, _ | done].
Qed.

Lemma steps_children evs : ∀ c ps z,
  childPromises ps →
  steps (c, PAll ps) evs z →
  self z.1 = self c.
Proof.
  induction evs as [|ev evs IH]; intros c ps z Hps Hsteps.
  - by inversion Hsteps; subst.
  - inversion Hsteps as [|x ev0 [c1 p1] evs0 z0 Hstep Hrest]; subst.
    destruct (step_children c ps ev (c1, p1) Hps Hstep)
      as (Hself & ps' & Hp & Hps').
    cbn in *. subst p1. rewrite <- Hself. by eapply IH.
Qed.

Lemma animateChildren_promise variantLabel dC sC sD priority s l :
  ∃ ps, (animateChildren variantLabel dC sC sD priority
           (Controls s (Some l))).2 = PAll ps
        ∧ childPromises ps.
Proof.
  unfold animateChildren. cbn [children].
  pose proof (forEachChild_promises
                (λ i childControls,
                   animateVariant variantLabel
                     (childOptions (length l) dC sC sD priority i)
                     childControls) 0 l) as Hps.
  destruct (forEachChild _ 0 l) as [l' ps]. by exists ps.
Qed.

(** X19: with [afterChildren] and without [beforeChildren], along every run
    of the event loop from the return of [animateVariant], the fields of the
    controller itself stay as they were until the callback that animates it
    runs, and that callback runs only once the promise of the children is
    settled. *)
Theorem own_waits_for_children (variantLabel : string)
    (opts : AnimationOptions) (s : Fields) (l : list AnimationControls)
    (v : Variant) (dC sC sD : Q) (evs : list event)
    (c' : AnimationControls) (q : Promise) :
  variants s !! variantLabel = Some v →
  orchestration (r_transition (resolveVariant (Some v) None))
  = (false, true, dC, sC, sD) →
  steps (animateVariant variantLabel opts (Controls s (Some l))) evs (c', q) →
  (self c' = s ∧ ∃ p', q = PThen p' (DAnimate v opts))
  ∨ (∃ evs1 evs2 c1 p1,
       evs = evs1 ++ EvThen (DAnimate v opts) :: evs2
       ∧ steps (animateChildren variantLabel dC sC sD
                  (default 0 (priority opts)) (Controls s (Some l)))
           evs1 (c1, p1)
       ∧ settled p1 = true
       ∧ self c1 = s
       ∧ steps (animateSelf (Some v) opts c1) evs2 (c', q)).
Proof.
  intros Hv Horch Hsteps.
  rewrite animateVariant_eq in Hsteps. cbv zeta in Hsteps.
  rewrite Hv, Horch in Hsteps. cbn [orb] in Hsteps.
  pose proof (animateChildren_self variantLabel dC sC sD
                (default 0 (priority opts)) (Controls s (Some l))) as Hself.
  pose proof (animateChildren_promise variantLabel dC sC sD
                (default 0 (priority opts)) s l) as Hkids.
  destruct (animateChildren _ _ _ _ _ _) as [c0 kids].
  cbn [fst snd self] in *.
  destruct Hkids as (ps & -> & Hps).
  apply steps_then_inv in Hsteps
    as [(c2 & p2 & [= -> ->] & Hrun)
       | (evs1 & evs2 & c1 & p1 & -> & Hrun & Hset & Hk)].
  - left. split; [| by eexists].
    apply steps_children in Hrun; [| done]. cbn in Hrun. congruence.
  - right. exists evs1, evs2, c1, p1. split; [done |]. split; [done |].
    split; [done |]. split; [| done].
    apply steps_children in Hrun; [| done]. cbn in Hrun. congruence.
Qed.

End sequencing_facts.

(** ** Lists of labels *)

Section labels_facts.
Context {ext : Collaborators}.

Lemma animateVariant_guarded label opts c key :
  key ∈ isAnimating (self c) → is_Some (values (self c) !! key) →
  values (self (animateVariant label opts c).1) !! key = values (self c) !! key
  ∧ key ∈ isAnimating (self (animateVariant label opts c).1).
Proof.
  intros Hin Hk.
  destruct (animateVariant_self label opts c) as [-> | (v & _ & ->)]; [done |].
  by destruct (animate_guarded (Some v) opts (self c) key Hin Hk) as (? & _ & ?).
Qed.

Lemma foldl_animateVariant_guarded opts labels c ps key :
  key ∈ isAnimating (self c) → is_Some (values (self c) !! key) →
  values (self (foldl
                  (λ '(c, animations) label,
                     let '(c, animation) := animateVariant label opts c in
                     (c, animations ++ [animation]))
                  (c, ps) labels).1) !! key
  = values (self c) !! key.
Proof.
  revert c ps. induction labels as [|label labels IH]; intros c ps Hin Hk;
    [done |].
  cbn [foldl].
  destruct (animateVariant_guarded label opts c key Hin Hk) as [Hv Hin'].
  destruct (animateVariant label opts c) as [c1 p1]. cbn [fst] in *.
  rewrite IH; [done | done | by rewrite Hv].
Qed.

(** X20: [start] of a list of labels animates the last label first, so the
    last label wins: every key of its resolved target that is defined and
    tracked after seeding is driven to the value the last label gives,
    whatever the labels before it say (provided the own animation of the
    last label does not wait for the children). *)
Theorem start_labels_last_wins (labels : list string) (last : string)
    (opts : AnimationOptions) (c : AnimationControls) (v : Variant)
    (key : string) (b : Val) :
  accepted opts c →
  variants (self c) !! last = Some v →
  ownAnimationWaits v (children c) = false →
  resolvedTarget v (self c) !! key = Some b → b ≠ VUndefined →
  is_Some (declaredTarget v !! key) ∨ is_Some (values (self c) !! key) →
  drivenTo (self (start (DLabels (labels ++ [last])) opts c).1) key b.
Proof.
  intros Hacc Hv Hnow Hb Hdef Htracked.
  rewrite (start_accepted _ _ _ Hacc). cbv zeta.
  unfold animateVariantLabels. rewrite reverse_snoc. cbn [foldl].
  destruct c as [s ch]. cbn [self children resetIsAnimating] in *.
  set (s0 := with_isAnimating ∅ _).
  set (ch0 := match ch with Some l => Some (map resetIsAnimating l) | None => None end).
  assert (resolvedTarget v s0 !! key = Some b) as Hb0.
  { rewrite <- Hb. f_equal. by apply resolvedTarget_values. }
  assert (∃ value, values (checkForNewValues (declaredTarget v) s0) !! key
                   = Some value) as [value Hval].
  { destruct Htracked as [Ht | Ht];
      [by apply checkForNewValues_tracked
      | by apply checkForNewValues_keeps]. }
  pose proof (animateVariant_self_now last opts s0 ch0 v) as Hself.
  destruct (animate_key_result v opts s0 key b value Hb0 Hdef) as [Hres Hmark];
    [set_solver | done |].
  destruct (animateVariant last opts (Controls s0 ch0)) as [c1 p1].
  cbn [fst] in Hself. rewrite <- Hself in Hres, Hmark; [| done | by destruct ch
                                                         | done | by destruct ch].
  pose proof (foldl_animateVariant_guarded opts (reverse labels) c1 ([] ++ [p1])
                key Hmark) as Hkeep.
  destruct (foldl _ (c1, [] ++ [p1]) (reverse labels)) as [c2 ps].
  cbn [fst] in *. unfold drivenTo.
  rewrite Hkeep by (rewrite Hres; by eexists). rewrite Hres.
  eexists. split; [done |].
  destruct (isAnimatable b); cbn; [by eexists | done].
Qed.

End labels_facts.

(** ** The tree of controllers *)

Lemma AnimationControls_tree_ind (P : AnimationControls → Prop) :
  (∀ s, P (Controls s None)) →
  (∀ s l, Forall P l → P (Controls s (Some l))) →
  ∀ c, P c.
Proof.
  intros Hnone Hsome. fix IH 1. intros [s [l|]]; [| apply Hnone].
  apply Hsome. induction l as [|c l IHl]; constructor; [apply IH | apply IHl].
Qed.

(** X21: [resetIsAnimating] empties the [isAnimating] set of the
    controller and of every descendant and changes nothing else; applying
    it twice is applying it once. *)
Theorem resetIsAnimating_whole_tree (c : AnimationControls) :
  controllers (resetIsAnimating c) = map (with_isAnimating ∅) (controllers c)
  ∧ (∀ s, s ∈ controllers (resetIsAnimating c) → isAnimating s = ∅)
  ∧ resetIsAnimating (resetIsAnimating c) = resetIsAnimating c.
Proof.
  assert (controllers (resetIsAnimating c)
          = map (with_isAnimating ∅) (controllers c)) as Hmap.
  { induction c as [s | s l IH] using AnimationControls_tree_ind; [done |].
    cbn [resetIsAnimating controllers map]. f_equal.
    induction IH as [|c l Hc _ IHl]; [done |].
    cbn [map concat]. rewrite map_app, Hc. by f_equal. }
  split; [done |]. split.
  - rewrite Hmap. intros s Hs. apply list_elem_of_fmap in Hs as (s' & -> & _).
    done.
  - clear Hmap.
    induction c as [s | s l IH] using AnimationControls_tree_ind; [done |].
    cbn [resetIsAnimating]. f_equal. f_equal.
    induction IH as [|c l Hc _ IHl]; [done |].
    cbn [map]. by rewrite Hc, IHl.
Qed.

Section registry_facts.
Context {ext : Collaborators}.

Lemma forEachChild_length f i l : length (forEachChild f i l).1 = length l.
Proof.
  revert i. induction l as [|c l IH]; intros i; [done |].
  cbn. destruct (f i c) as [c1 p1]. specialize (IH (S i)).
  destruct (forEachChild f (S i) l) as [l1 ps1]. cbn in *. by rewrite IH.
Qed.

Lemma animateChildren_registered label dC sC sD priority c :
  registered (animateChildren label dC sC sD priority c).1 = registered c.
Proof.
  unfold animateChildren, registered. destruct c as [s [l|]]; [| done].
  cbn [children].
  pose proof (forEachChild_length
                (λ i childControls,
                   animateVariant label
                     (childOptions (length l) dC sC sD priority i)
                     childControls) 0 l) as Hlen.
  destruct (forEachChild _ 0 l) as [l' ps]. cbn in *. by rewrite Hlen.
Qed.

Lemma animateVariant_registered label opts c :
  registered (animateVariant label opts c).1 = registered c.
Proof.
  destruct c as [s ch]. rewrite animateVariant_eq. cbv zeta.
  destruct (match variants s !! label with
            | Some v => match ch with
                        | Some _ => orchestration (r_transition (resolveVariant (Some v) None))
                        | None => orchestration None
                        end
            | None => orchestration None
            end) as [[[[b a] dC] sC] sD].
  destruct (b || a); [destruct b |].
  - by destruct (match variants s !! label with
                 | Some v => animate (Some v) opts s
                 | None => (s, PResolved)
                 end).
  - pose proof (animateChildren_registered label dC sC sD
                  (default 0 (priority opts)) (Controls s ch)) as Hr.
    by destruct (animateChildren _ _ _ _ _ _).
  - destruct (match variants s !! label with
              | Some v => animate (Some v) opts s
              | None => (s, PResolved)
              end) as [s' own].
    pose proof (animateChildren_registered label dC sC sD
                  (default 0 (priority opts)) (Controls s' ch)) as Hr.
    by destruct (animateChildren _ _ _ _ _ _).
Qed.

Lemma foldl_animateVariant_registered opts labels c ps :
  registered (foldl
                (λ '(c, animations) label,
                   let '(c, animation) := animateVariant label opts c in
                   (c, animations ++ [animation]))
                (c, ps) labels).1
  = registered c.
Proof.
  revert c ps. induction labels as [|label labels IH]; intros c ps; [done |].
  cbn [foldl]. pose proof (animateVariant_registered label opts c) as Hr.
  destruct (animateVariant label opts c) as [c1 p1]. cbn [fst] in Hr.
  by rewrite IH.
Qed.

Lemma resetIsAnimating_registered c :
  registered (resetIsAnimating c) = registered c.
Proof. destruct c as [s [l|]]; [| done]. cbn. by rewrite length_map. Qed.

Lemma animateSelf_registered variant opts c :
  registered (animateSelf variant opts c).1 = registered c.
Proof. unfold animateSelf. by destruct (animate variant opts (self c)). Qed.

Lemma start_registered definition opts c :
  registered (start definition opts c).1 = registered c.
Proof.
  unfold start. cbv zeta.
  destruct (match priority opts with
            | Some p => negb (isHighestPriority p _)
            | None => false
            end); [done |].
  destruct definition as [labels|label|v].
  - unfold animateVariantLabels.
    pose proof (foldl_animateVariant_registered opts (reverse labels)
                  (resetIsAnimating
                     (Controls
                        (setPriorityAnimation (DLabels labels)
                           (default 0 (priority opts)) (self c))
                        (children c))) []) as Hr.
    destruct (foldl _ _ _) as [c1 ps]. cbn [fst] in *.
    rewrite Hr, resetIsAnimating_registered. by destruct c.
  - rewrite animateVariant_registered, resetIsAnimating_registered.
    by destruct c.
  - rewrite animateSelf_registered, resetIsAnimating_registered.
    by destruct c.
Qed.

(** X22: animating never registers or unregisters a child: [animateVariant],
    [animateChildren], [start] and [clearOverride] leave the registry with
    the number of children it had, and without a registry none appears. *)
Theorem registry_size_kept (c : AnimationControls) :
  (∀ label opts, registered (animateVariant label opts c).1 = registered c)
  ∧ (∀ label dC sC sD priority,
       registered (animateChildren label dC sC sD priority c).1 = registered c)
  ∧ (∀ definition opts, registered (start definition opts c).1 = registered c)
  ∧ (∀ i, registered (clearOverride i c).1 = registered c).
Proof.
  split; [intros; apply animateVariant_registered |].
  split; [intros; apply animateChildren_registered |].
  split; [intros; apply start_registered |].
  intros i.
  destruct (overrides (self c) !! i) as [[d|]|] eqn:Hd;
    try (unfold clearOverride; by rewrite Hd).
  destruct (truthy d) eqn:Ht; [| unfold clearOverride; by rewrite Hd, Ht].
  rewrite (clearOverride_set i c d Hd Ht). cbv zeta.
  set (cleared := resetIsAnimating (unsetSlot i c)).
  assert (registered cleared = registered c) as Hcl.
  { subst cleared. rewrite resetIsAnimating_registered. by destruct c. }
  case_decide; [done |].
  set (highest := getHighestPriority (self cleared)).
  destruct (match overrides (self cleared) !! highest with
            | Some (Some highestOverride) =>
                if truthy highestOverride then
                  start highestOverride
                    {| delay := None; priority := Some highest |} cleared
                else (cleared, PResolved)
            | _ => (cleared, PResolved)
            end) as [mid restarted] eqn:Emid.
  assert (registered mid = registered cleared) as Hmid.
  { destruct (overrides (self cleared) !! highest) as [[dh|]|];
      try (by injection Emid as <- <-).
    destruct (truthy dh); [| by injection Emid as <- <-].
    pose proof (start_registered dh
                  {| delay := None; priority := Some highest |} cleared) as Hs.
    by rewrite Emid in Hs. }
  pose proof (animateSelf_registered
                (Some (VObject (mkTargetAndTransition None None
                                  (baseTarget (self mid)))))
                noOptions mid) as Hre.
  destruct (animateSelf _ noOptions mid) as [c' reapplied].
  cbn [fst] in *. congruence.
Qed.

(** X23: [resetChildren] empties the registry and keeps it in place.
    Afterwards [animateVariant] reaches no child, and what it does to the
    controller itself is what it does with the children registered. *)
Theorem resetChildren_detaches (c : AnimationControls) :
  self (resetChildren c) = self c
  ∧ registered (resetChildren c) = (λ _, 0) <$> registered c
  ∧ resetChildren (resetChildren c) = resetChildren c
  ∧ (∀ label opts,
       children (animateVariant label opts (resetChildren c)).1
       = children (resetChildren c)
       ∧ self (animateVariant label opts (resetChildren c)).1
         = self (animateVariant label opts c).1).
Proof.
  destruct c as [s ch]. unfold resetChildren, registered. cbn [self children].
  split; [done |]. split; [by destruct ch |]. split; [by destruct ch |].
  intros label opts. rewrite !animateVariant_eq. cbv zeta.
  destruct ch as [l|].
  - destruct (match variants s !! label with
              | Some v => orchestration (r_transition (resolveVariant (Some v) None))
              | None => orchestration None
              end) as [[[[b a] dC] sC] sD].
    unfold animateChildren. cbn [children self].
    destruct (b || a); [destruct b |].
    + by destruct (match variants s !! label with
                   | Some v => animate (Some v) opts s
                   | None => (s, PResolved)
                   end).
    + cbn [forEachChild]. by destruct (forEachChild _ 0 l).
    + destruct (match variants s !! label with
                | Some v => animate (Some v) opts s
                | None => (s, PResolved)
                end) as [s' own].
      cbn [forEachChild]. by destruct (forEachChild _ 0 l).
  - unfold animateChildren. cbn [children].
    destruct (variants s !! label); cbn [orchestration orb];
      try destruct (animate _ _ _); done.
Qed.

(** X24: a request that was deferred is replayed when the override above it
    clears: [clearOverride] leaves the controller as a [start] of the
    recorded definition at its priority, without the delay the request was
    given, followed by re-applying the base target, leaves it. *)
Theorem deferred_request_replayed (definition above : AnimationDefinition)
    (opts : AnimationOptions) (c : AnimationControls) (p i : nat) :
  priority opts = Some p → p < i →
  overrides (self c) !! i = Some (Some above) →
  truthy above = true → truthy definition = true →
  (∀ j, p < j → j ≠ i → ¬ occupied (self c) j) →
  (start definition opts c).2 = PResolved
  ∧ (clearOverride i (start definition opts c).1).1
    = (reapplyBase (replay definition p i (start definition opts c).1).1).1.
Proof.
  intros Hp Hlt Hi Ha Hd Hnone.
  assert (occupied (self c) i) as Hocc by (by exists above).
  rewrite (start_deferred_eq definition opts c p i Hp Hlt Hocc). cbn [fst snd].
  split; [done |].
  set (c1 := Controls _ (children c)).
  assert (p < length (overrides (self c))) as Hlen.
  { apply lookup_lt_Some in Hi. lia. }
  assert (overrides (self c1) !! i = Some (Some above)) as Hi1.
  { subst c1. cbn. rewrite list_lookup_insert_ne by lia. done. }
  rewrite (clearOverride_set i c1 above Hi1 Ha). cbv zeta.
  set (cleared := resetIsAnimating (unsetSlot i c1)).
  assert (overrides (self cleared)
          = <[i := None]> (<[p := Some definition]> (overrides (self c))))
    as Hov.
  { subst cleared c1. by rewrite self_resetIsAnimating. }
  assert (overrides (self cleared) !! p = Some (Some definition)) as Hslot.
  { rewrite Hov. rewrite list_lookup_insert_ne by lia.
    by apply list_lookup_insert_eq. }
  assert (getHighestPriority (self cleared) = p) as Hh.
  { apply getHighestPriority_unique; [by exists definition |].
    intros j Hj [d Hdj]. rewrite Hov in Hdj.
    destruct (decide (j = i)) as [->|Hne].
    - rewrite list_lookup_insert_eq in Hdj; [done |].
      rewrite length_insert. by apply lookup_lt_Some in Hi.
    - rewrite list_lookup_insert_ne in Hdj by done.
      rewrite list_lookup_insert_ne in Hdj by lia.
      apply (Hnone j Hj Hne). by exists d. }
  rewrite Hh. rewrite decide_False by lia. rewrite Hslot, Hd.
  unfold replay, reapplyBase. fold cleared.
  destruct (start definition {| delay := None; priority := Some p |} cleared)
    as [mid restarted].
  cbn [fst snd].
  change (VObject (mkTargetAndTransition None None (baseTarget (self mid))))
    with (baseVariant (self mid)).
  by destruct (animateSelf (Some (baseVariant (self mid))) noOptions mid).
Qed.

End registry_facts.

(** ** Bounds of the stagger delays *)

Lemma N2Q_le (i j : nat) : i ≤ j → (N2Q i <= N2Q j)%Q.
Proof.
  intros Hle. unfold N2Q. rewrite <- Zle_Qle. lia.
Qed.

(** X25: with a stagger that is not negative, every child of a registry of
    [N] children is delayed by at least [delayChildren] and at most
    [delayChildren + (N - 1) * staggerChildren], in either direction; the
    forward delays do not decrease with the index and the reversed delays do
    not increase. *)
Theorem stagger_delay_bounds (N : nat)
    (delayChildren staggerChildren staggerDirection : Q) (priority i j : nat) :
  (0 <= staggerChildren)%Q → i ≤ j → j < N →
  (delayChildren
   <= passDelay (childOptions N delayChildren staggerChildren staggerDirection
                   priority i))%Q
  ∧ (passDelay (childOptions N delayChildren staggerChildren staggerDirection
                  priority i)
     <= delayChildren + (N2Q N - 1) * staggerChildren)%Q
  ∧ ((staggerDirection == 1)%Q →
     (passDelay (childOptions N delayChildren staggerChildren staggerDirection
                   priority i)
      <= passDelay (childOptions N delayChildren staggerChildren
                      staggerDirection priority j))%Q)
  ∧ (¬ (staggerDirection == 1)%Q →
     (passDelay (childOptions N delayChildren staggerChildren staggerDirection
                   priority j)
      <= passDelay (childOptions N delayChildren staggerChildren
                      staggerDirection priority i))%Q).
Proof.
  intros Hs Hij HjN. unfold passDelay, childOptions.
  cbn [delay default from_option id].
  unfold generateStaggerDuration. fold (N2Q N) (N2Q i) (N2Q j).
  pose proof (N2Q_le i j Hij) as Hq1.
  assert (N2Q j <= N2Q N - 1)%Q as Hq2.
  { unfold N2Q. replace 1%Q with (inject_Z 1) by done.
    unfold Qminus. rewrite <- inject_Z_opp, <- inject_Z_plus, <- Zle_Qle. lia. }
  assert (0 <= N2Q i)%Q as Hq0.
  { unfold N2Q. replace 0%Q with (inject_Z 0) by done.
    rewrite <- Zle_Qle. lia. }
  destruct (Qeq_bool staggerDirection 1) eqn:E.
  - apply Qeq_bool_iff in E.
    split; [nra |]. split; [nra |]. split; [intros _; nra | by intros []].
  - assert (¬ (staggerDirection == 1)%Q) as Hne.
    { intros Heq. apply Qeq_bool_iff in Heq. congruence. }
    split; [nra |]. split; [nra |]. split; [by intros ? | intros _; nra].
Qed.

(** ** The further facts on the sample configurations *)

Lemma start_then_clearOverride_witness :
  priority (atPriority 1) = Some 1 ∧ truthy hovered = true
  ∧ (occupied
       (self (clearOverride (ext := sampleCollaborators) 1
                (start (ext := sampleCollaborators) hovered (atPriority 1)
                   sampleControls).1).1) 2
     ↔ 2 ≠ 1 ∧ occupied (self sampleControls) 2).
Proof.
  split; [reflexivity |]. split; [reflexivity |].
  apply (start_then_clearOverride (ext := sampleCollaborators) hovered
           (atPriority 1) sampleControls 1); reflexivity.
Defined.

Lemma applyVariantLabels_untouched_witness :
  applied (resolveVariant (variants fadeFields !! "visible") (props fadeFields))
    !! "display" = None
  ∧ values (applyVariantLabels ["visible"] fadeFields) !! "display"
    = values fadeFields !! "display"
  ∧ baseTarget (applyVariantLabels ["visible"] fadeFields) !! "display"
    = baseTarget fadeFields !! "display".
Proof.
  split; [reflexivity |].
  apply (applyVariantLabels_untouched ["visible"] fadeFields "display").
  intros label Hin. apply list_elem_of_singleton in Hin as ->. reflexivity.
Defined.

Lemma animate_skips_animating_witness :
  "opacity" ∈ isAnimating fading
  ∧ is_Some (values fading !! "opacity")
  ∧ values (animate (ext := sampleCollaborators) (Some hidden) noOptions
              fading).1 !! "opacity"
    = values fading !! "opacity"
  ∧ baseTarget (animate (ext := sampleCollaborators) (Some hidden) noOptions
                  fading).1 !! "opacity"
    = baseTarget fading !! "opacity"
  ∧ "opacity" ∈ isAnimating (animate (ext := sampleCollaborators) (Some hidden)
                               noOptions fading).1.
Proof.
  assert ("opacity" ∈ isAnimating fading) as Hin by (by vm_compute).
  assert (is_Some (values fading !! "opacity")) as Hk by (by eexists).
  split; [exact Hin |]. split; [exact Hk |].
  exact (animate_skips_animating (ext := sampleCollaborators) (Some hidden)
           noOptions fading "opacity" Hin Hk).
Defined.

Lemma animate_override_keeps_baseTarget_witness :
  priority (atPriority 1) = Some 1 ∧ 1 ≠ 0
  ∧ baseTarget (animate (ext := sampleCollaborators) (Some (moveTo 9))
                  (atPriority 1) (self sampleControls)).1
    = baseTarget (checkForNewValues (ext := sampleCollaborators)
                    (declaredTarget (moveTo 9)) (self sampleControls)).
Proof.
  split; [reflexivity |]. split; [lia |].
  apply (animate_override_keeps_baseTarget (ext := sampleCollaborators)
           (moveTo 9) (atPriority 1) (self sampleControls) 1);
    [reflexivity | lia].
Defined.

Lemma animate_drives_key_witness :
  resolvedTarget (ext := sampleCollaborators) hidden fadeFields !! "opacity"
  = Some (VNumber 0)
  ∧ VNumber 0 ≠ VUndefined
  ∧ ("opacity" ∉ isAnimating fadeFields)
  ∧ values (checkForNewValues (ext := sampleCollaborators)
              (declaredTarget hidden) fadeFields) !! "opacity"
    = Some (motionValue (VNumber 1))
  ∧ values (animate (ext := sampleCollaborators) (Some hidden) noOptions
              fadeFields).1 !! "opacity"
    = Some (mv_control
              (mkPlayback "opacity" (VNumber 0) 0 (passTransition hidden fadeFields))
              (motionValue (VNumber 1)))
  ∧ "opacity" ∈ isAnimating (animate (ext := sampleCollaborators) (Some hidden)
                               noOptions fadeFields).1.
Proof.
  assert ("opacity" ∉ isAnimating fadeFields) as Hnot by (by vm_compute).
  split; [reflexivity |]. split; [discriminate |]. split; [exact Hnot |].
  split; [reflexivity |].
  apply (animate_drives_key (ext := sampleCollaborators) hidden noOptions
           fadeFields "opacity" (VNumber 0) (motionValue (VNumber 1)));
    [reflexivity | discriminate | exact Hnot | reflexivity].
Defined.

Lemma sampleControls_accepts_2 : accepted (atPriority 2) sampleControls.
Proof.
  intros i Hi [d Hd]. apply lookup_lt_Some in Hd. cbn in Hd. lia.
Defined.

Lemma start_begins_fresh_pass_witness :
  accepted (atPriority 2) sampleControls
  ∧ (∀ key,
       key ∈ isAnimating
               (self (start (ext := sampleCollaborators) (DVariant (moveTo 9))
                        (atPriority 2) sampleControls).1) →
       is_Some (resolvedTarget (ext := sampleCollaborators) (moveTo 9)
                  (self sampleControls) !! key))
  ∧ children (start (ext := sampleCollaborators) (DVariant (moveTo 9))
                (atPriority 2) sampleControls).1
    = (map resetIsAnimating <$> children sampleControls).
Proof.
  split; [exact sampleControls_accepts_2 |].
  exact (start_begins_fresh_pass (ext := sampleCollaborators) (moveTo 9)
           (atPriority 2) sampleControls sampleControls_accepts_2).
Defined.

Lemma led_steps :
  steps (ext := sampleCollaborators)
    (animateVariant (ext := sampleCollaborators) "hidden" noOptions
       (family leading))
    ledRun led.
Proof.
  eapply steps_cons.
  - apply step_awaited. apply step_awaited.
    apply (step_all _ [] (PControl "opacity") []). apply step_settle.
  - eapply steps_cons.
    + apply step_awaited. apply step_then; reflexivity.
    + eapply steps_cons; [| apply steps_nil].
      apply step_then; reflexivity.
Defined.

Lemma children_wait_for_own_witness :
  variants (parentFields leading) !! "hidden" = Some (fadeWith leading)
  ∧ orchestration (r_transition (resolveVariant (Some (fadeWith leading)) None))
    = (true, false, 0%Q, (1 # 10)%Q, 1%Q)
  ∧ steps (ext := sampleCollaborators)
      (animateVariant (ext := sampleCollaborators) "hidden" noOptions
         (family leading))
      ledRun led
  ∧ ∃ evs1 evs2,
      ledRun = evs1 ++ EvThen animateTheChildren :: evs2
      ∧ EvThen (DTransitionEnd None) ∈ evs1
      ∧ EvSettle "opacity" ∈ evs1.
Proof.
  split; [reflexivity |]. split; [reflexivity |]. split; [exact led_steps |].
  destruct (children_wait_for_own (ext := sampleCollaborators) "hidden"
              noOptions (parentFields leading) [leaf; leaf] (fadeWith leading)
              false 0%Q (1 # 10)%Q 1%Q ledRun led.1 led.2)
    as [(_ & p' & Hq) | (evs1 & evs2 & Hevs & Hend & Hkeys)].
  - reflexivity.
  - reflexivity.
  - exact led_steps.
  - vm_compute in Hq. discriminate Hq.
  - exists evs1, evs2. split; [exact Hevs |]. split; [exact Hend |].
    apply (Hkeys "opacity" (VNumber 0)).
    + reflexivity.
    + reflexivity.
    + by vm_compute.
    + left. by eexists.
Defined.

Lemma followed_steps :
  steps (ext := sampleCollaborators)
    (animateVariant (ext := sampleCollaborators) "hidden" noOptions
       (family following))
    followedRun followed.
Proof.
  eapply steps_cons.
  { apply step_awaited. apply (step_all _ [] (PChild 0 _) [_]).
    eapply step_child; [reflexivity |].
    apply (step_all _ [] (PThen _ _) [_]). apply step_awaited.
    apply (step_all _ [] (PControl "opacity") []). apply step_settle. }
  eapply steps_cons.
  { apply step_awaited. apply (step_all _ [] (PChild 0 _) [_]).
    eapply step_child; [reflexivity |].
    apply (step_all _ [] (PThen _ _) [_]). apply step_then; reflexivity. }
  eapply steps_cons.
  { apply step_awaited. apply (step_all _ [_] (PChild 1 _) []).
    eapply step_child; [reflexivity |].
    apply (step_all _ [] (PThen _ _) [_]). apply step_awaited.
    apply (step_all _ [] (PControl "opacity") []). apply step_settle. }
  eapply steps_cons.
  { apply step_awaited. apply (step_all _ [_] (PChild 1 _) []).
    eapply step_child; [reflexivity |].
    apply (step_all _ [] (PThen _ _) [_]). apply step_then; reflexivity. }
  eapply steps_cons; [| apply steps_nil].
  apply step_then; reflexivity.
Defined.

Lemma own_waits_for_children_witness :
  variants (parentFields following) !! "hidden" = Some (fadeWith following)
  ∧ orchestration
      (r_transition (resolveVariant (Some (fadeWith following)) None))
    = (false, true, 0%Q, 0%Q, 1%Q)
  ∧ steps (ext := sampleCollaborators)
      (animateVariant (ext := sampleCollaborators) "hidden" noOptions
         (family following))
      followedRun followed
  ∧ ∃ evs1 evs2,
      followedRun
      = evs1 ++ EvThen (DAnimate (fadeWith following) noOptions) :: evs2.
Proof.
  split; [reflexivity |]. split; [reflexivity |]. split; [exact followed_steps |].
  destruct (own_waits_for_children (ext := sampleCollaborators) "hidden"
              noOptions (parentFields following) [leaf; leaf]
              (fadeWith following) 0%Q 0%Q 1%Q followedRun
              followed.1 followed.2)
    as [(_ & p' & Hq) | (evs1 & evs2 & c1 & p1 & Hevs & _)].
  - reflexivity.
  - reflexivity.
  - exact followed_steps.
  - vm_compute in Hq. discriminate Hq.
  - by exists evs1, evs2.
Defined.

Lemma start_labels_last_wins_witness :
  accepted noOptions leaf
  ∧ variants (self leaf) !! "hidden" = Some hidden
  ∧ ownAnimationWaits hidden (children leaf) = false
  ∧ resolvedTarget (ext := sampleCollaborators) hidden (self leaf) !! "opacity"
    = Some (VNumber 0)
  ∧ drivenTo (ext := sampleCollaborators)
      (self (start (ext := sampleCollaborators) (DLabels ["visible"; "hidden"])
               noOptions leaf).1)
      "opacity" (VNumber 0).
Proof.
  split; [exact I |]. split; [reflexivity |]. split; [reflexivity |].
  split; [reflexivity |].
  apply (start_labels_last_wins (ext := sampleCollaborators) ["visible"]
           "hidden" noOptions leaf hidden "opacity" (VNumber 0));
    [exact I | reflexivity | reflexivity | reflexivity | discriminate |].
  left. by eexists.
Defined.

Lemma sampleControls_only_pressed j :
  1 < j → j ≠ 2 → ¬ occupied (self sampleControls) j.
Proof.
  intros H1 H2 [d Hd]. apply lookup_lt_Some in Hd. cbn in Hd. lia.
Defined.

Lemma deferred_request_replayed_witness :
  priority (atPriority 1) = Some 1 ∧ 1 < 2
  ∧ overrides (self sampleControls) !! 2 = Some (Some pressed)
  ∧ truthy pressed = true ∧ truthy hovered = true
  ∧ (start (ext := sampleCollaborators) hovered (atPriority 1)
       sampleControls).2 = PResolved
  ∧ (clearOverride (ext := sampleCollaborators) 2
       (start (ext := sampleCollaborators) hovered (atPriority 1)
          sampleControls).1).1
    = (reapplyBase (ext := sampleCollaborators)
         (replay (ext := sampleCollaborators) hovered 1 2
            (start (ext := sampleCollaborators) hovered (atPriority 1)
               sampleControls).1).1).1.
Proof.
  split; [reflexivity |]. split; [lia |]. split; [reflexivity |].
  split; [reflexivity |]. split; [reflexivity |].
  apply (deferred_request_replayed (ext := sampleCollaborators) hovered
           pressed (atPriority 1) sampleControls 1 2);
    [reflexivity | lia | reflexivity | reflexivity | reflexivity
    | exact sampleControls_only_pressed].
Defined.

Lemma stagger_delay_bounds_witness :
  (0 <= 1 # 10)%Q ∧ 0 ≤ 2 ∧ 2 < 3
  ∧ (1 # 2 <= passDelay (staggered 0 1 0))%Q
  ∧ (passDelay (staggered 0 1 0) <= (1 # 2) + (N2Q 3 - 1) * (1 # 10))%Q.
Proof.
  assert (0 <= 1 # 10)%Q as Hs by (by vm_compute).
  split; [exact Hs |]. split; [lia |]. split; [lia |].
  destruct (stagger_delay_bounds 3 (1 # 2) (1 # 10) 1 0 0 2 Hs)
    as (Hlow & Hhigh & _); [lia | lia |].
  split; [exact Hlow | exact Hhigh].
Defined.

(** ** The callback of [transitionEnd] *)

Section transition_end_facts.
Context {ext : Collaborators}.

(** What a pass leaves at a key: the key is as the seeding of the target's
    keys left it, or it is a key of the resolved target and holds the value
    of the target. *)
Lemma animate_key_cases v opts s key :
  view key (animate (Some v) opts s).1
  = view key (checkForNewValues (declaredTarget v) s)
  ∨ ∃ b value,
      resolvedTarget v s !! key = Some b ∧ b ≠ VUndefined
      ∧ values (checkForNewValues (declaredTarget v) s) !! key = Some value
      ∧ values (animate (Some v) opts s).1 !! key
        = Some (if isAnimatable b
                then mv_control
                       (mkPlayback key b (passDelay opts) (passTransition v s))
                       value
                else mv_set b value)
      ∧ baseTarget (animate (Some v) opts s).1 !! key
        = if (default 0 (priority opts) =? 0)%nat then Some b
          else baseTarget (checkForNewValues (declaredTarget v) s) !! key.
Proof.
  destruct (resolvedTarget v s !! key) as [b|] eqn:Hb.
  - assert (is_Some (resolvedTarget v s !! key)) as Hsome by (by eexists).
    pose proof (animate_view v opts s key Hsome) as Hview. cbv zeta in Hview.
    assert (defaultTransition (checkForNewValues (declaredTarget v) s)
            = defaultTransition s) as Hdt.
    { pose proof (checkForNewValues_config (declaredTarget v) s) as Hc.
      unfold config in Hc. congruence. }
    rewrite Hdt in Hview. fold (passTransition v s) (passDelay opts) in Hview.
    set (s1 := checkForNewValues (declaredTarget v) s) in *.
    unfold animateKey in Hview.
    destruct (decide (key ∈ isAnimating s1)) as [Hin | Hnot]; [by left |].
    destruct (values s1 !! key) as [value|] eqn:Hval; [| by left].
    unfold prop_get in Hview. rewrite Hb in Hview.
    cbn [default from_option id] in Hview.
    destruct (is_undefined b) eqn:Hu; [by left |].
    right. exists b, value.
    split; [done |]. split; [by intros -> |]. split; [done |].
    generalize dependent (animate (Some v) opts s).1. intros pass Hview.
    destruct (isAnimatable b), (default 0 (priority opts) =? 0)%nat;
      unfold view in Hview; cbn in Hview; injection Hview as -> -> _;
      by rewrite ?lookup_insert_eq.
  - left. rewrite animate_present. cbv zeta.
    match goal with
    | |- context [foldl (animateKey ?t ?tr ?d ?p) (?s1, ?a1) ?ks] =>
        pose proof (foldl_animateKey_notin t tr d p ks (s1, a1) key) as Hout;
        destruct (foldl (animateKey t tr d p) (s1, a1) ks) as [s2 animations]
    end.
    cbn [fst] in *. apply Hout. rewrite elem_of_keys, Hb. by intros [? ?].
Qed.

(** A key outside the target is not touched by the seeding. *)
Lemma checkForNewValues_outside target s key :
  target !! key = None →
  values (checkForNewValues target s) !! key = values s !! key
  ∧ baseTarget (checkForNewValues target s) !! key = baseTarget s !! key.
Proof.
  intros Ht. unfold checkForNewValues.
  apply (foldl_seedValue_lookup _ s key).
  rewrite list_elem_of_filter, elem_of_keys, Ht. by intros [_ [? ?]].
Qed.

(** C5: the promise of a pass awaits the [control] promise of every key it
    animates.  Along every run of the event loop from the end of the pass,
    either only animations have settled so far, or the callback of
    [transitionEnd] has run.  In the first case the controller is as the pass
    left it, and the pass has set no value of [transitionEnd]: every key is
    as the seeding of the target's keys left it or holds the value of the
    target, and a key outside the target is as it was before the pass.  In
    the second case the callback is the last event, it follows the settling
    of the promise of every animation of the pass, and it has set every value
    of [transitionEnd] directly. *)
Theorem transitionEnd_after_animations (v : Variant) (opts : AnimationOptions)
    (s : Fields) (ch : option (list AnimationControls)) (evs : list event)
    (c' : AnimationControls) (p' : Promise) :
  steps (Controls (animate (Some v) opts s).1 ch, (animate (Some v) opts s).2)
    evs (c', p') →
  ∃ animations,
    (animate (Some v) opts s).2
    = PThen (PAll animations) (DTransitionEnd (resolvedTransitionEnd v s))
    ∧ (∀ key b,
         resolvedTarget v s !! key = Some b → isAnimatable b = true →
         key ∉ isAnimating s →
         is_Some (declaredTarget v !! key) ∨ is_Some (values s !! key) →
         PControl key ∈ animations)
    ∧ ((Forall isSettle evs
        ∧ c' = Controls (animate (Some v) opts s).1 ch
        ∧ (∃ pending,
             p' = PThen (PAll pending)
                    (DTransitionEnd (resolvedTransitionEnd v s)))
        ∧ (∀ key,
             view key (self c')
             = view key (checkForNewValues (declaredTarget v) s)
             ∨ ∃ b value,
                 resolvedTarget v s !! key = Some b ∧ b ≠ VUndefined
                 ∧ values (checkForNewValues (declaredTarget v) s) !! key
                   = Some value
                 ∧ values (self c') !! key
                   = Some (if isAnimatable b
                           then mv_control
                                  (mkPlayback key b (passDelay opts)
                                     (passTransition v s))
                                  value
                           else mv_set b value)
                 ∧ baseTarget (self c') !! key
                   = if (default 0 (priority opts) =? 0)%nat then Some b
                     else baseTarget
                            (checkForNewValues (declaredTarget v) s) !! key)
        ∧ (∀ key,
             resolvedTarget v s !! key = None →
             declaredTarget v !! key = None →
             values (self c') !! key = values s !! key
             ∧ baseTarget (self c') !! key = baseTarget s !! key))
       ∨ (∃ settles,
            evs = settles ++ [EvThen (DTransitionEnd (resolvedTransitionEnd v s))]
            ∧ Forall isSettle settles
            ∧ (∀ key, PControl key ∈ animations → EvSettle key ∈ settles)
            ∧ (c', p')
              = runDeferred (DTransitionEnd (resolvedTransitionEnd v s))
                  (Controls (animate (Some v) opts s).1 ch)
            ∧ (∀ transitionEnd key x,
                 resolvedTransitionEnd v s = Some transitionEnd →
                 transitionEnd !! key = Some x →
                 assigned (self c') key x))).
Proof.
  pose proof (animate_key_cases v opts s) as Hcases.
  set (callback := DTransitionEnd (resolvedTransitionEnd v s)).
  revert Hcases. rewrite animate_present. cbv zeta.
  match goal with
  | |- context [foldl (animateKey ?t ?tr ?d ?p) (?s1, ?a1) ?ks] =>
      pose proof (foldl_animateKey_promises t tr d p ks (s1, a1)) as Hctl;
      pose proof (λ key, foldl_animateKey_awaits t tr d p ks s1 a1 key
                           (keys_NoDup _)) as Hawait;
      destruct (foldl (animateKey t tr d p) (s1, a1) ks) as [s2 animations]
  end.
  cbn [fst snd] in *. intros Hcases Hsteps.
  exists animations. split; [done |]. split.
  - intros key b Hb Han Hnot Htracked. apply Hawait.
    + apply elem_of_keys. by rewrite Hb.
    + by rewrite checkForNewValues_isAnimating.
    + destruct Htracked; [by apply checkForNewValues_tracked
                         | by apply checkForNewValues_keeps].
    + unfold prop_get. by rewrite Hb.
  - apply steps_pass in Hsteps.
    + destruct Hsteps as [(Hevs & ps' & Hz & _) | (settles & -> & Hset & Hkeys & Hz)].
      * left. injection Hz as -> ->. cbn [self].
        split; [done |]. split; [done |]. split; [by eexists |].
        split; [exact Hcases |].
        intros key Hres Hdecl.
        destruct (checkForNewValues_outside (declaredTarget v) s key Hdecl)
          as [Hv Hbt].
        destruct (Hcases key) as [Hview | (b & value & Hb & _)];
          [| congruence].
        unfold view in Hview. injection Hview as Hv2 Hbt2 _.
        by rewrite Hv2, Hbt2.
      * right. exists settles. repeat (split; [done |]).
        intros transitionEnd key x Hte Hx. unfold callback in Hz.
        rewrite Hte in Hz. injection Hz as -> _. cbn [self].
        by apply setValues_assigns.
    + eapply Forall_impl; [apply Hctl; constructor |].
      intros p [key ->]. right. by exists key.
    + intros c0. unfold callback. by destruct (resolvedTransitionEnd v s).
Qed.

End transition_end_facts.

Lemma fadeOut_first_step :
  steps (ext := sampleCollaborators) (Controls fadeOut.1 None, fadeOut.2)
    [EvSettle "opacity"] opacitySettled.
Proof.
  eapply steps_cons; [| apply steps_nil].
  apply step_awaited. apply (step_all _ [] (PControl "opacity") []).
  apply step_settle.
Defined.

Lemma transitionEnd_after_animations_witness :
  steps (ext := sampleCollaborators) (Controls fadeOut.1 None, fadeOut.2)
    [EvSettle "opacity"; EvThen snapDisplay] fadedOut
  ∧ (∃ settles,
       [EvSettle "opacity"; EvThen snapDisplay] = settles ++ [EvThen snapDisplay]
       ∧ EvSettle "opacity" ∈ settles)
  ∧ steps (ext := sampleCollaborators) (Controls fadeOut.1 None, fadeOut.2)
      [EvSettle "opacity"] opacitySettled
  ∧ values (self opacitySettled.1) !! "display"
    = Some (motionValue (VString "block")).
Proof.
  split; [exact fadeOut_steps |]. split.
  - destruct (transitionEnd_after_animations (ext := sampleCollaborators)
                hidden noOptions fadeFields None
                [EvSettle "opacity"; EvThen snapDisplay] fadedOut.1 fadedOut.2)
      as (animations & _ & Hawait
          & [(Hsettle & _) | (settles & Hevs & _ & Hkeys & _ & _)]).
    + exact fadeOut_steps.
    + apply Forall_cons in Hsettle as [_ Hsettle].
      apply Forall_cons in Hsettle as [[key Hkey] _]. discriminate.
    + exists settles. split; [exact Hevs |]. apply Hkeys.
      apply (Hawait "opacity" (VNumber 0)).
      * reflexivity.
      * reflexivity.
      * by vm_compute.
      * left. by eexists.
  - split; [exact fadeOut_first_step |].
    destruct (transitionEnd_after_animations (ext := sampleCollaborators)
                hidden noOptions fadeFields None
                [EvSettle "opacity"] opacitySettled.1 opacitySettled.2)
      as (animations & _ & _
          & [(_ & _ & _ & _ & Hkept) | (settles & Hevs & _)]).
    + exact fadeOut_first_step.
    + destruct (Hkept "display") as [Hvalue _]; [reflexivity | reflexivity |].
      rewrite Hvalue. reflexivity.
    + destruct settles as [|ev [|ev' settles]]; discriminate.
Defined.
